(** * camera_stream.py: the capture producer, its frame slot, the streaming
    session and the control endpoint

    A shallow embedding of [src/camera_stream.py].

    - Python objects: the attributes of the [CameraHandler] instance are a
      record of [attr] cells; reading a cell that was never assigned raises
      [AttributeError], as Python does.
    - Effects: methods are computations in the monad [M], a state monad over
      [world] that also carries a raised exception.  The state is kept when
      an exception is raised, so [try]/[except]/[finally] see the writes made
      before the raise.
    - The environment (the camera driver, the thread scheduler, the clock,
      the network) is an explicit argument: [start_env] says which driver
      call of [start] fails, an [event] is what [capture_continuous] hands to
      the loop, a [schedule] is what the capture threads do while [stop]
      waits in [join], [now] is a reading of [time.perf_counter()].
    - [PiCamera.close()] is a call that is counted in [close_calls] and
      that may raise: every device carries what its [close()] raises
      ([close_raises], chosen by the environment when the device is
      opened).  A call that returns marks the device closed; a call that
      raises leaves it open.
    - Every modelled exception is an [Exception]; [KeyboardInterrupt] and
      the other exceptions that [except Exception] lets through are not
      modelled.
    - Logging calls have no effect on the modelled state and are left out;
      the reads of [self] they make are kept.
    - Granularity.  In [CameraHandler] a method body outside [join], one
      loop iteration of the capture thread and the exit block of the loop
      are each one transition: this is what each of them does when no
      other thread touches the handler meanwhile.  The two places where
      the code lets blocks overlap without a lock are modelled statement
      by statement: the frame slot in [FrameSlot], and the guarded close
      at the end of [stop] against the one in the [finally] block of the
      capture thread in [Teardown], whose steps are the same primitives. *)

From Stdlib Require Import Floats ZArith Lia Ascii.
From stdpp Require Import base option list strings gmap pretty.

Set Default Proof Using "Type".

(** ** Bytes and time *)

Definition bytes := list Byte.byte.

(** [time.perf_counter()] returns a Python float: an IEEE 754 binary64. *)
Definition time := float.

(** ** Python exceptions met in the camera component *)

Inductive exn : Type :=
| AttributeError (name : string)
| PiCameraNotRecording            (* picamera.exc.PiCameraNotRecording *)
| PiCameraError                   (* any other picamera.exc.PiCameraError *)
| OtherException (msg : string).  (* any other subclass of Exception *)

(** [isinstance(e, picamera.exc.PiCameraError)]: [PiCameraNotRecording] is a
    subclass of [PiCameraError]. *)
Definition is_PiCameraError (e : exn) : bool :=
  match e with
  | PiCameraNotRecording | PiCameraError => true
  | _ => false
  end.

(** ** Object attributes *)

Inductive attr (A : Type) : Type :=
| Unset
| Is (v : A).
Arguments Unset {A}.
Arguments Is {A} v.

(** ** The camera device and the capture thread, as the handler sees them *)

Record PiCamera : Type := mkPiCamera {
  closed : bool;
  close_calls : nat;
  cam_resolution : option (nat * nat);
  cam_framerate : option nat;
  close_raises : option exn   (* what close() raises on this device, if anything *)
}.

Definition fresh_camera (close_raises : option exn) : PiCamera :=
  {| closed := false; close_calls := 0;
     cam_resolution := None; cam_framerate := None;
     close_raises := close_raises |}.

Inductive thread_state : Type :=
| Created      (* Thread(...) built, start() not called or failed *)
| Spawned      (* started, body not entered yet *)
| Capturing    (* inside the for loop, waiting for the device *)
| Finished.

Definition alive (ts : thread_state) : bool :=
  match ts with
  | Spawned | Capturing => true
  | Created | Finished => false
  end.

Record CameraHandler : Type := mkCameraHandler {
  camera : attr (option nat);
  frame_bytes : attr (option bytes);
  running : attr bool;
  lock : attr unit;
  resolution : attr (nat * nat);
  framerate : attr nat;
  jpeg_quality : attr nat;
  thread : attr (option nat);
  last_frame_time : attr time
}.

Record world : Type := mkWorld {
  self : CameraHandler;
  cameras : list PiCamera;       (* every PiCamera() ever built, by identity *)
  threads : list thread_state    (* every Thread ever built, by identity *)
}.

(** ** The monad of methods *)

Inductive result (A : Type) : Type :=
| Ok (a : A)
| Raise (e : exn).
Arguments Ok {A} a.
Arguments Raise {A} e.

Definition M (A : Type) : Type := world -> result A * world.

Definition ret {A} (a : A) : M A := fun w => (Ok a, w).
Definition raise {A} (e : exn) : M A := fun w => (Raise e, w).
Definition bind {A B} (m : M A) (k : A -> M B) : M B :=
  fun w =>
    match m w with
    | (Ok a, w') => k a w'
    | (Raise e, w') => (Raise e, w')
    end.

Declare Scope py_scope.
Delimit Scope py_scope with py.
Notation "x <- m ;; k" := (bind m (fun x => k))
  (at level 100, m at next level, right associativity) : py_scope.
Notation "m ;; k" := (bind m (fun _ => k))
  (at level 100, right associativity) : py_scope.
Open Scope py_scope.

(** [try: body except Exception as e: handler e].  Every modelled exception
    is an [Exception]; a clause for a narrower class is a branch of
    [handler]. *)
Definition try_except {A} (body : M A) (handler : exn -> M A) : M A :=
  fun w =>
    match body w with
    | (Ok a, w') => (Ok a, w')
    | (Raise e, w') => handler e w'
    end.

(** [try: body finally: fin].  An exception raised by [fin] replaces the
    outcome of [body]. *)
Definition try_finally {A} (body : M A) (fin : M unit) : M A :=
  fun w =>
    match body w with
    | (r, w') =>
        match fin w' with
        | (Ok _, w'') => (r, w'')
        | (Raise e, w'') => (Raise e, w'')
        end
    end.

(** ** Attribute access on [self] *)

Definition getattr {A} (name : string) (field : CameraHandler -> attr A) : M A :=
  fun w =>
    match field (self w) with
    | Is v => (Ok v, w)
    | Unset => (Raise (AttributeError name), w)
    end.

Definition modify_self (f : CameraHandler -> CameraHandler) : M unit :=
  fun w => (Ok tt, {| self := f (self w); cameras := cameras w; threads := threads w |}).

Definition with_camera (v : option nat) (h : CameraHandler) : CameraHandler :=
  {| camera := Is v; frame_bytes := frame_bytes h; running := running h;
     lock := lock h; resolution := resolution h; framerate := framerate h;
     jpeg_quality := jpeg_quality h; thread := thread h;
     last_frame_time := last_frame_time h |}.

Definition with_frame_bytes (v : option bytes) (h : CameraHandler) : CameraHandler :=
  {| camera := camera h; frame_bytes := Is v; running := running h;
     lock := lock h; resolution := resolution h; framerate := framerate h;
     jpeg_quality := jpeg_quality h; thread := thread h;
     last_frame_time := last_frame_time h |}.

Definition with_running (v : bool) (h : CameraHandler) : CameraHandler :=
  {| camera := camera h; frame_bytes := frame_bytes h; running := Is v;
     lock := lock h; resolution := resolution h; framerate := framerate h;
     jpeg_quality := jpeg_quality h; thread := thread h;
     last_frame_time := last_frame_time h |}.

Definition with_thread (v : option nat) (h : CameraHandler) : CameraHandler :=
  {| camera := camera h; frame_bytes := frame_bytes h; running := running h;
     lock := lock h; resolution := resolution h; framerate := framerate h;
     jpeg_quality := jpeg_quality h; thread := Is v;
     last_frame_time := last_frame_time h |}.

Definition with_last_frame_time (v : time) (h : CameraHandler) : CameraHandler :=
  {| camera := camera h; frame_bytes := frame_bytes h; running := running h;
     lock := lock h; resolution := resolution h; framerate := framerate h;
     jpeg_quality := jpeg_quality h; thread := thread h;
     last_frame_time := Is v |}.

(** Truth value of an object that is [None] or an instance ([if self.camera],
    [if self.thread]). *)
Definition truthy {A} (o : option A) : bool :=
  match o with Some _ => true | None => false end.

(** [x is not None] *)
Definition is_not_None {A} (o : option A) : bool :=
  match o with Some _ => true | None => false end.

(** Truth value of [self.frame_bytes]: [None] and [b''] are false. *)
Definition truthy_bytes (o : option bytes) : bool :=
  match o with
  | Some (_ :: _) => true
  | Some [] | None => false
  end.

(** ** Driver and thread primitives *)

(** [picamera.PiCamera()]: raises when the device cannot be opened, else
    builds a new open device. *)
Definition PiCamera_new (fault close_fault : option exn) : M nat :=
  fun w =>
    match fault with
    | Some e => (Raise e, w)
    | None =>
        (Ok (length (cameras w)),
         {| self := self w; cameras := cameras w ++ [fresh_camera close_fault];
            threads := threads w |})
    end.

Definition modify_camera (d : nat) (f : PiCamera -> PiCamera) : M unit :=
  fun w =>
    (Ok tt, {| self := self w; cameras := alter f d (cameras w);
               threads := threads w |}).

(** [self.camera.<name> = v]; on [None] the attribute cannot be set. *)
Definition camera_setattr (name : string) (fault : option exn)
    (f : PiCamera -> PiCamera) : M unit :=
  c <- getattr "camera" camera ;;
  match c with
  | None => raise (AttributeError name)
  | Some d =>
      match fault with
      | Some e => raise e
      | None => modify_camera d f
      end
  end.

(** What one call of [close()] does to the device: the call is counted; it
    closes the device unless it raises, and a call that raises leaves the
    device open. *)
Definition close_device (c : PiCamera) : PiCamera :=
  {| closed := match close_raises c with Some _ => closed c | None => true end;
     close_calls := S (close_calls c);
     cam_resolution := cam_resolution c; cam_framerate := cam_framerate c;
     close_raises := close_raises c |}.

(** The outcome of [close()] on device [d]. *)
Definition close_outcome (d : nat) : M unit :=
  fun w =>
    match cameras w !! d with
    | Some dev =>
        match close_raises dev with
        | Some e => (Raise e, w)
        | None => (Ok tt, w)
        end
    | None => (Ok tt, w)
    end.

(** [self.camera.close()] *)
Definition camera_close : M unit :=
  c <- getattr "camera" camera ;;
  match c with
  | None => raise (AttributeError "close")
  | Some d => modify_camera d close_device ;; close_outcome d
  end.

(** [self.camera.closed] *)
Definition camera_closed : M bool :=
  c <- getattr "camera" camera ;;
  match c with
  | None => raise (AttributeError "closed")
  | Some d =>
      fun w =>
        match cameras w !! d with
        | Some dev => (Ok (closed dev), w)
        | None => (Ok true, w)
        end
  end.

(** Reading another attribute of [self.camera] (for a log line). *)
Definition camera_getattr (name : string) : M unit :=
  c <- getattr "camera" camera ;;
  match c with
  | None => raise (AttributeError name)
  | Some _ => ret tt
  end.

(** [threading.Thread(target=self._capture_loop, ...)] *)
Definition Thread_new : M nat :=
  fun w =>
    (Ok (length (threads w)),
     {| self := self w; cameras := cameras w; threads := threads w ++ [Created] |}).

Definition set_thread_state (tid : nat) (ts : thread_state) : M unit :=
  fun w =>
    (Ok tt, {| self := self w; cameras := cameras w;
               threads := <[tid := ts]> (threads w) |}).

(** [self.thread.start()] *)
Definition Thread_start (fault : option exn) : M unit :=
  t <- getattr "thread" thread ;;
  match t with
  | None => raise (AttributeError "start")
  | Some tid =>
      match fault with
      | Some e => raise e
      | None => set_thread_state tid Spawned
      end
  end.

(** [self.thread.is_alive()] *)
Definition Thread_is_alive : M bool :=
  t <- getattr "thread" thread ;;
  match t with
  | None => raise (AttributeError "is_alive")
  | Some tid =>
      fun w =>
        match threads w !! tid with
        | Some ts => (Ok (alive ts), w)
        | None => (Ok false, w)
        end
  end.

(** ** The environment of the capture component *)

(** Which driver call of [start] raises, if any. *)
Record start_env : Type := mkStartEnv {
  open_fault : option exn;         (* picamera.PiCamera() *)
  resolution_fault : option exn;   (* self.camera.resolution = ... *)
  framerate_fault : option exn;    (* self.camera.framerate = ... *)
  thread_fault : option exn;       (* self.thread.start() *)
  close_fault : option exn         (* close() of the device that is opened *)
}.

(** What one resumption of [capture_continuous] does to the [for] loop. *)
Inductive event : Type :=
| Frame (jpeg : bytes) (t : time)  (* yields; [jpeg] is stream.getvalue(),
                                      [t] the perf_counter() read at publish *)
| Fault (e : exn)                  (* raises *)
| EndOfStream.                     (* the iterator is exhausted *)

Inductive thread_action : Type :=
| Enter                  (* a spawned thread runs up to its first device wait *)
| Deliver (ev : event).  (* the device call of a capturing thread returns *)

Definition schedule : Type := list (nat * thread_action).

Inductive loop_ctl : Type :=
| Continue   (* back to the device wait *)
| LoopDone.  (* [break], or the iterator ended *)

(** What one iteration of a streaming session does. *)
Inductive stream_step : Type :=
| StreamEnd                             (* the generator returns *)
| Yield (chunk : bytes) (sleep : float) (* yield chunk; time.sleep(sleep) *)
| Idle (sleep : float).                 (* no yield; time.sleep(sleep) *)

Definition bytes_of_string (s : string) : bytes := String.list_byte_of_string s.

Definition CRLF : string :=
  String (Ascii.ascii_of_nat 13) (String (Ascii.ascii_of_nat 10) EmptyString).

(** [b'--frame\r\nContent-Type: image/jpeg\r\n\r\n' + frame + b'\r\n'] *)
Definition multipart_chunk (frame : bytes) : bytes :=
  bytes_of_string ("--frame" +:+ CRLF +:+ "Content-Type: image/jpeg" +:+ CRLF +:+ CRLF)
  ++ frame ++ bytes_of_string CRLF.

(** [min_stream_interval = 1.0 / 30.0] *)
Definition min_stream_interval : float := (1 / 30)%float.

(** ** class CameraHandler *)

Section CameraHandler.

(** The module-level flag set by [import picamera]. *)
Variable PICAMERA_AVAILABLE : bool.

Definition __init__ (res : nat * nat) (fps quality : nat) : CameraHandler :=
  if negb PICAMERA_AVAILABLE then
    {| camera := Is None; frame_bytes := Unset; running := Is false;
       lock := Unset; resolution := Unset; framerate := Unset;
       jpeg_quality := Unset; thread := Unset; last_frame_time := Unset |}
  else
    {| camera := Is None; frame_bytes := Is None; running := Is false;
       lock := Is tt; resolution := Is res; framerate := Is fps;
       jpeg_quality := Is quality; thread := Is None;
       last_frame_time := Is 0%float |}.

(** The two [except] clauses of [start] have the same body:
    [self.running = False; if self.camera: self.camera.close(); self.camera = None].
    The call of [close()] is not inside a [try] here: what it raises leaves
    [start], with [self.camera] still set. *)
Definition start_handler (e : exn) : M unit :=
  modify_self (with_running false) ;;
  c <- getattr "camera" camera ;;
  if truthy c then
    camera_close ;;
    modify_self (with_camera None)
  else ret tt.

Definition start (env : start_env) : M unit :=
  already <- (if negb PICAMERA_AVAILABLE then ret true
              else c <- getattr "camera" camera ;; ret (is_not_None c)) ;;
  if already then
    (* if self.running: log  elif not PICAMERA_AVAILABLE: log *)
    _ <- getattr "running" running ;;
    ret tt
  else
    r <- getattr "running" running ;;
    if r then ret tt
    else
      try_except
        (d <- PiCamera_new (open_fault env) (close_fault env) ;;
         modify_self (with_camera (Some d)) ;;
         res <- getattr "resolution" resolution ;;
         camera_setattr "resolution" (resolution_fault env)
           (fun c => {| closed := closed c; close_calls := close_calls c;
                        cam_resolution := Some res;
                        cam_framerate := cam_framerate c;
                        close_raises := close_raises c |}) ;;
         fps <- getattr "framerate" framerate ;;
         camera_setattr "framerate" (framerate_fault env)
           (fun c => {| closed := closed c; close_calls := close_calls c;
                        cam_resolution := cam_resolution c;
                        cam_framerate := Some fps;
                        close_raises := close_raises c |}) ;;
         (* time.sleep(2); the log line reads self.camera *)
         camera_getattr "resolution" ;;
         modify_self (with_running true) ;;
         tid <- Thread_new ;;
         modify_self (with_thread (Some tid)) ;;
         Thread_start (thread_fault env) ;;
         (* the log line reads self.jpeg_quality *)
         _ <- getattr "jpeg_quality" jpeg_quality ;;
         ret tt)
        start_handler.

(** The guarded close shared by the [finally] block of [_capture_loop] and
    by [stop]:
    [if self.camera and hasattr(self.camera, 'closed') and not self.camera.closed:
        try: self.camera.close() except Exception: log] *)
Definition close_if_open : M unit :=
  c <- getattr "camera" camera ;;
  if truthy c then
    (* hasattr(self.camera, 'closed'): false only of None *)
    c' <- getattr "camera" camera ;;
    if truthy c' then
      cl <- camera_closed ;;
      if negb cl then try_except camera_close (fun _ => ret tt)
      else ret tt
    else ret tt
  else ret tt.

(** *** [_capture_loop], one resumption at a time *)

(** The body of the [for] loop for what the device hands over. *)
Definition capture_iteration (ev : event) : M loop_ctl :=
  match ev with
  | Frame jpeg t =>
      r <- getattr "running" running ;;
      if negb r then ret LoopDone
      else
        (* with self.lock: *)
        _ <- getattr "lock" lock ;;
        modify_self (with_frame_bytes (Some jpeg)) ;;
        modify_self (with_last_frame_time t) ;;
        ret Continue
  | Fault e => raise e
  | EndOfStream => ret LoopDone
  end.

(** After the loop, still inside [try]: [if self.running: log]. *)
Definition after_loop : M unit :=
  _ <- getattr "running" running ;; ret tt.

Definition capture_except (e : exn) : M unit :=
  match e with
  | PiCameraNotRecording => _ <- getattr "running" running ;; ret tt
  | _ => ret tt
  end.

Definition capture_finally : M unit :=
  modify_self (with_running false) ;;
  close_if_open ;;
  modify_self (with_camera None).

(** Leaving the [try] statement with the outcome [r] of the loop. *)
Definition capture_exit (r : result loop_ctl) : M unit :=
  try_finally
    (try_except
       (match r with Ok _ => after_loop | Raise e => raise e end)
       capture_except)
    capture_finally.

(** Runs [piece] inside the [try] of thread [tid]: the thread goes back to
    the device wait, or leaves the [try] and ends. *)
Definition in_try (tid : nat) (piece : M loop_ctl) : M unit :=
  fun w =>
    match piece w with
    | (Ok Continue, w1) => set_thread_state tid Capturing w1
    | (r, w1) =>
        match capture_exit r w1 with
        | (r', w2) => (r', snd (set_thread_state tid Finished w2))
        end
    end.

(** From thread start to the first device wait: the guard
    [if not PICAMERA_AVAILABLE or not self.camera: return], then, inside
    [try], the call [self.camera.capture_continuous(..., quality=self.jpeg_quality)]. *)
Definition capture_enter (tid : nat) : M unit :=
  skip <- (if negb PICAMERA_AVAILABLE then ret true
           else c <- getattr "camera" camera ;; ret (negb (truthy c))) ;;
  if skip then set_thread_state tid Finished
  else
    in_try tid
      (c <- getattr "camera" camera ;;
       match c with
       | None => raise (AttributeError "capture_continuous")
       | Some _ => _ <- getattr "jpeg_quality" jpeg_quality ;; ret Continue
       end).

(** One transition of capture thread [tid]; an action the thread cannot
    take in its state does nothing. *)
Definition _capture_loop (tid : nat) (a : thread_action) : M unit :=
  fun w =>
    match threads w !! tid, a with
    | Some Spawned, Enter => capture_enter tid w
    | Some Capturing, Deliver ev => in_try tid (capture_iteration ev) w
    | _, _ => (Ok tt, w)
    end.

(** What the capture threads do during a wait; an exception that ends a
    thread stays in that thread. *)
Definition run_threads (s : schedule) (w : world) : world :=
  foldl (fun w '(tid, a) => snd (_capture_loop tid a w)) w s.

(** [self.thread.join(timeout=3.0)]: returns when the thread has ended or
    the timeout has passed; [during] is what the threads did meanwhile. *)
Definition Thread_join (during : schedule) : M unit :=
  fun w => (Ok tt, run_threads during w).

Definition get_frame_jpeg_bytes (now : time) : M (option bytes) :=
  if negb PICAMERA_AVAILABLE then ret None
  else
    (* with self.lock: *)
    _ <- getattr "lock" lock ;;
    fb <- getattr "frame_bytes" frame_bytes ;;
    if truthy_bytes fb then
      t <- getattr "last_frame_time" last_frame_time ;;
      if (now - t <? 1)%float then getattr "frame_bytes" frame_bytes
      else ret None
    else ret None.

(** [stop] up to the return of [join] (l.190-198). *)
Definition stop_head (during_join : schedule) : M unit :=
  modify_self (with_running false) ;;
  t <- getattr "thread" thread ;;
  if truthy t then
    a <- Thread_is_alive ;;
    if a then
      Thread_join during_join ;;
      _ <- Thread_is_alive ;;
      ret tt
    else ret tt
  else ret tt.

(** The rest of [stop] (l.202-209), run with no other thread in between. *)
Definition stop_tail : M unit :=
  close_if_open ;;
  modify_self (with_camera None) ;;
  modify_self (with_frame_bytes None).

Definition stop (during_join : schedule) : M unit :=
  if negb PICAMERA_AVAILABLE then ret tt
  else stop_head during_join ;; stop_tail.

(** *** [generate_video_frames], one pass of its [while] loop

    [flask_running] and [camera_handler] are the module globals;
    [camera_handler] is [None] or the handler of the world.  [placeholder]
    is what the offline branch encodes (empty when cv2 fails).  The
    [except Exception] around the loop ends the generator. *)
Definition generate_video_frames (flask_running camera_handler : bool)
    (placeholder : bytes) (now : time) : M stream_step :=
  if negb flask_running then ret StreamEnd
  else
    try_except
      (offline <- (if negb camera_handler then ret true
                   else r <- getattr "running" running ;;
                        ret (negb r || negb PICAMERA_AVAILABLE)) ;;
       if offline then ret (Yield (multipart_chunk placeholder) 1%float)
       else
         jpeg_bytes <- get_frame_jpeg_bytes now ;;
         match jpeg_bytes with
         | Some (b :: bs) =>
             ret (Yield (multipart_chunk (b :: bs)) min_stream_interval)
         | _ => ret (Idle (min_stream_interval / 2)%float)
         end)
      (fun _ => ret StreamEnd).

End CameraHandler.

(** ** The release of the device, statement by statement

    The guarded close at the end of [stop] (l.202-209) and the one in the
    [finally] block of [_capture_loop] (l.167-176) are not under the lock.
    When [join] has timed out, the end of [stop] and the exit of the
    capture thread can be under way at once.  Here every read of
    [self.camera], the call of [close()] and every assignment is a step of
    its own, and the steps of the two blocks interleave in any order.  A
    call of [close()] is one step. *)

Module Teardown.

Inductive pc : Type :=
| AtRunning       (* self.running = False                       (l.167) *)
| AtCameraTest    (* if self.camera ...                   (l.169, l.202) *)
| AtHasattr       (* ... and hasattr(self.camera, 'closed') ...         *)
| AtClosedTest    (* ... and not self.camera.closed:                    *)
| AtClose         (* try: self.camera.close() except Exception: log     *)
| AtClearCamera   (* self.camera = None                   (l.176, l.208) *)
| AtClearFrame    (* self.frame_bytes = None                    (l.209) *)
| Ended           (* the block is left normally *)
| Escaped (e : exn).  (* an exception has left the block *)

(** Whose block: the end of [stop], or the [finally] of the capture thread. *)
Inductive who : Type :=
| Stopper
| Capture.

Definition first (a : who) : pc :=
  match a with
  | Stopper => AtCameraTest
  | Capture => AtRunning
  end.

(** The step at [p] and the place the block goes on at.  The three tests of
    the [if] read [self.camera] one after the other; [hasattr] of [None] is
    false, [None.closed] raises outside the [try]. *)
Definition next (a : who) (p : pc) : M pc :=
  match p with
  | AtRunning =>
      modify_self (with_running false) ;; ret AtCameraTest
  | AtCameraTest =>
      c <- getattr "camera" camera ;;
      ret (if truthy c then AtHasattr else AtClearCamera)
  | AtHasattr =>
      c <- getattr "camera" camera ;;
      ret (if truthy c then AtClosedTest else AtClearCamera)
  | AtClosedTest =>
      cl <- camera_closed ;;
      ret (if cl then AtClearCamera else AtClose)
  | AtClose =>
      try_except camera_close (fun _ => ret tt) ;; ret AtClearCamera
  | AtClearCamera =>
      modify_self (with_camera None) ;;
      ret (match a with Stopper => AtClearFrame | Capture => Ended end)
  | AtClearFrame =>
      modify_self (with_frame_bytes None) ;; ret Ended
  | Ended => ret Ended
  | Escaped e => ret (Escaped e)
  end.

Definition advance (a : who) (p : pc) (w : world) : pc * world :=
  match next a p w with
  | (Ok p', w') => (p', w')
  | (Raise e, w') => (Escaped e, w')
  end.

Record state : Type := mkState {
  store : world;
  stopper : pc;
  capture : pc
}.

Definition move (a : who) (s : state) : state :=
  match a with
  | Stopper =>
      {| store := snd (advance Stopper (stopper s) (store s));
         stopper := fst (advance Stopper (stopper s) (store s));
         capture := capture s |}
  | Capture =>
      {| store := snd (advance Capture (capture s) (store s));
         stopper := stopper s;
         capture := fst (advance Capture (capture s) (store s)) |}
  end.

(** [order] says whose step comes next, one step at a time. *)
Definition run (order : list who) (s : state) : state :=
  foldl (fun s a => move a s) s order.

(** [join] has returned with the capture thread still alive: [stop] is at
    its guarded close, the thread has its [finally] block before it. *)
Definition init (w : world) : state :=
  {| store := w; stopper := first Stopper; capture := first Capture |}.

Definition ended (p : pc) : bool :=
  match p with
  | Ended | Escaped _ => true
  | _ => false
  end.

(** [n] steps of the block of [a] with nothing in between. *)
Definition steps (a : who) (n : nat) (p : pc) (w : world) : pc * world :=
  Nat.iter n (fun s => advance a (fst s) (snd s)) (p, w).

(** The block of [a] run from its first step to its end with nothing in
    between; no block has more than seven steps. *)
Definition alone (a : who) (w : world) : pc * world :=
  steps a 7 (first a) w.

End Teardown.

(** ** The frame slot, statement by statement

    The two attributes [frame_bytes] and [last_frame_time] and the lock that
    guards them, with the capture loop (the writer) and any number of
    callers of [get_frame_jpeg_bytes] (the readers) interleaved one
    statement at a time.  [threading.Lock] is a blocking mutex: [with
    self.lock] is entered only when the lock is free.  [stop] assigns
    [self.frame_bytes = None] without taking the lock; that write is the
    transition [clear]. *)

Module FrameSlot.

Inductive owner : Type :=
| Free
| Writer
| Reader (r : nat).

Record slot : Type := mkSlot {
  frame_bytes : option bytes;
  last_frame_time : time;
  lock : owner
}.

(** Where the capture loop is in
    [with self.lock: self.frame_bytes = stream.getvalue();
                     self.last_frame_time = time.perf_counter()]. *)
Inductive writer_pc : Type :=
| W_outside
| W_entered (jpeg : bytes)      (* lock taken, nothing stored yet *)
| W_stored_bytes (jpeg : bytes) (* frame_bytes stored, time not yet *)
| W_stored_both.                (* both stored, lock not released yet *)

(** Where a reader is in
    [with self.lock:
       if self.frame_bytes and (time.perf_counter() - self.last_frame_time < 1.0):
           return self.frame_bytes
       return None]. *)
Inductive reader_pc : Type :=
| R_outside
| R_entered                                  (* lock taken *)
| R_truthy                                   (* self.frame_bytes was true *)
| R_fresh (t : time)                         (* the test passed on timestamp t *)
| R_leaving (res : option (bytes * time)).   (* return value fixed *)

Record state : Type := mkState {
  cell : slot;
  writer : writer_pc;
  readers : gmap nat reader_pc;
  (* history: the (payload, timestamp) of every publish, and what every
     completed read returned, with the timestamp it tested *)
  published : list (bytes * time);
  returned : list (option (bytes * time))
}.

Definition reader_at (s : state) (r : nat) : reader_pc :=
  default R_outside (readers s !! r).

Definition init : state :=
  {| cell := {| frame_bytes := None; last_frame_time := 0%float; lock := Free |};
     writer := W_outside; readers := ∅; published := []; returned := [] |}.

Definition set_reader (r : nat) (pc : reader_pc) (s : state) : state :=
  {| cell := cell s; writer := writer s; readers := <[r := pc]> (readers s);
     published := published s; returned := returned s |}.

Definition set_lock (o : owner) (c : slot) : slot :=
  {| frame_bytes := frame_bytes c; last_frame_time := last_frame_time c; lock := o |}.

(** The statements, as state updates. *)

(* with self.lock:  (entered by the capture loop, which holds [jpeg]) *)
Definition do_w_enter (jpeg : bytes) (s : state) : state :=
  {| cell := set_lock Writer (cell s); writer := W_entered jpeg;
     readers := readers s; published := published s; returned := returned s |}.

(* self.frame_bytes = stream.getvalue() *)
Definition do_w_store_bytes (jpeg : bytes) (s : state) : state :=
  {| cell := {| frame_bytes := Some jpeg;
                last_frame_time := last_frame_time (cell s);
                lock := lock (cell s) |};
     writer := W_stored_bytes jpeg;
     readers := readers s; published := published s; returned := returned s |}.

(* self.last_frame_time = time.perf_counter() *)
Definition do_w_store_time (jpeg : bytes) (t : time) (s : state) : state :=
  {| cell := {| frame_bytes := frame_bytes (cell s);
                last_frame_time := t;
                lock := lock (cell s) |};
     writer := W_stored_both;
     readers := readers s; published := (jpeg, t) :: published s;
     returned := returned s |}.

(* end of the with block of the capture loop *)
Definition do_w_leave (s : state) : state :=
  {| cell := set_lock Free (cell s); writer := W_outside;
     readers := readers s; published := published s; returned := returned s |}.

(* with self.lock:  (entered by reader r) *)
Definition do_r_enter (r : nat) (s : state) : state :=
  set_reader r R_entered
    {| cell := set_lock (Reader r) (cell s); writer := writer s;
       readers := readers s; published := published s; returned := returned s |}.

(* if self.frame_bytes and ... *)
Definition do_r_test_bytes (r : nat) (s : state) : state :=
  set_reader r
    (if truthy_bytes (frame_bytes (cell s)) then R_truthy else R_leaving None) s.

(* ... (time.perf_counter() - self.last_frame_time < 1.0): *)
Definition do_r_test_time (r : nat) (now : time) (s : state) : state :=
  set_reader r
    (if (now - last_frame_time (cell s) <? 1)%float
     then R_fresh (last_frame_time (cell s))
     else R_leaving None) s.

(* return self.frame_bytes *)
Definition do_r_load_result (r : nat) (t : time) (s : state) : state :=
  set_reader r
    (R_leaving (match frame_bytes (cell s) with
                | Some b => Some (b, t)
                | None => None
                end)) s.

(* end of the with block of reader r: the call returns [res] *)
Definition do_r_leave (r : nat) (res : option (bytes * time)) (s : state) : state :=
  set_reader r R_outside
    {| cell := set_lock Free (cell s); writer := writer s;
       readers := readers s; published := published s;
       returned := res :: returned s |}.

(* stop: self.frame_bytes = None, outside the lock *)
Definition do_clear (s : state) : state :=
  {| cell := {| frame_bytes := None;
                last_frame_time := last_frame_time (cell s);
                lock := lock (cell s) |};
     writer := writer s; readers := readers s;
     published := published s; returned := returned s |}.

(** One statement of one thread. *)
Inductive step : state -> state -> Prop :=
| w_enter s jpeg :
    writer s = W_outside -> lock (cell s) = Free ->
    step s (do_w_enter jpeg s)
| w_store_bytes s jpeg :
    writer s = W_entered jpeg ->
    step s (do_w_store_bytes jpeg s)
| w_store_time s jpeg t :
    writer s = W_stored_bytes jpeg ->
    step s (do_w_store_time jpeg t s)
| w_leave s :
    writer s = W_stored_both ->
    step s (do_w_leave s)
| r_enter s r :
    reader_at s r = R_outside -> lock (cell s) = Free ->
    step s (do_r_enter r s)
| r_test_bytes s r :
    reader_at s r = R_entered ->
    step s (do_r_test_bytes r s)
| r_test_time s r now :
    reader_at s r = R_truthy ->
    step s (do_r_test_time r now s)
| r_load_result s r t :
    reader_at s r = R_fresh t ->
    step s (do_r_load_result r t s)
| r_leave s r res :
    reader_at s r = R_leaving res ->
    step s (do_r_leave r res s)
| clear s :
    step s (do_clear s).

Definition reachable (s : state) : Prop := rtc step init s.

(** The same statements without the lock: [with self.lock] removed from
    both sides.  Used to show what the lock is for. *)
Inductive step_unlocked : state -> state -> Prop :=
| u_w_enter s jpeg :
    writer s = W_outside -> step_unlocked s (do_w_enter jpeg s)
| u_w_store_bytes s jpeg :
    writer s = W_entered jpeg -> step_unlocked s (do_w_store_bytes jpeg s)
| u_w_store_time s jpeg t :
    writer s = W_stored_bytes jpeg -> step_unlocked s (do_w_store_time jpeg t s)
| u_w_leave s :
    writer s = W_stored_both -> step_unlocked s (do_w_leave s)
| u_r_enter s r :
    reader_at s r = R_outside -> step_unlocked s (do_r_enter r s)
| u_r_test_bytes s r :
    reader_at s r = R_entered -> step_unlocked s (do_r_test_bytes r s)
| u_r_test_time s r now :
    reader_at s r = R_truthy -> step_unlocked s (do_r_test_time r now s)
| u_r_load_result s r t :
    reader_at s r = R_fresh t -> step_unlocked s (do_r_load_result r t s)
| u_r_leave s r res :
    reader_at s r = R_leaving res -> step_unlocked s (do_r_leave r res s).

(** What holds between the statements. *)
Record invariant (s : state) : Prop := mkInvariant {
  (* the lock is the writer's exactly while it is inside its block *)
  inv_writer : lock (cell s) = Writer <-> writer s <> W_outside;
  (* the lock is reader r's exactly while r is inside its block *)
  inv_reader : forall r, lock (cell s) = Reader r <-> reader_at s r <> R_outside;
  (* outside the two stores, the slot holds nothing or one publish *)
  inv_slot :
    match writer s with
    | W_stored_bytes jpeg =>
        frame_bytes (cell s) = Some jpeg \/ frame_bytes (cell s) = None
    | _ =>
        forall b, frame_bytes (cell s) = Some b ->
                  (b, last_frame_time (cell s)) ∈ published s
    end;
  (* the timestamp a reader tested is the one in the slot *)
  inv_fresh : forall r t, reader_at s r = R_fresh t -> t = last_frame_time (cell s);
  (* what a reader is about to return is one publish *)
  inv_leaving : forall r b t,
    reader_at s r = R_leaving (Some (b, t)) -> (b, t) ∈ published s;
  (* what was returned is one publish *)
  inv_returned : forall b t, Some (b, t) ∈ returned s -> (b, t) ∈ published s
}.

End FrameSlot.

(** ** The control endpoint and the relay *)

Module Relay.

Definition ARDUINO_CONTROLLER_HOST : string := "localhost".
Definition ARDUINO_CONTROLLER_PORT : Z := 9000%Z.

(** What a socket call can raise, with [str(e)] where the code prints it. *)
Inductive sock_exn : Type :=
| timeout                     (* socket.timeout *)
| error (e : string)          (* any other socket.error *)
| unexpected (e : string).    (* any other Exception *)

(** The network: which of the calls on the socket raises, if any. *)
Record net : Type := mkNet {
  socket_fault : option sock_exn;    (* socket.socket(...) *)
  connect_fault : option sock_exn;   (* s.connect(...) *)
  sendall_fault : option sock_exn    (* s.sendall(...) *)
}.

(** The calls made on the relay link, in order. *)
Inductive relay_call : Type :=
| connect (host : string) (port : Z)
| sendall (data : bytes).

(** [command_char.encode('ascii')]; [None] stands for UnicodeEncodeError. *)
Definition encode_ascii (s : string) : option bytes :=
  if forallb (fun c => Nat.ltb (Ascii.nat_of_ascii c) 128) (String.list_ascii_of_string s)
  then Some (String.list_byte_of_string s)
  else None.

Definition sent_message (c : string) : string :=
  "Command '" +:+ c +:+ "' sent to Arduino Controller.".

Definition error_message (c : string) (x : sock_exn) : string :=
  match x with
  | timeout => "Timeout sending '" +:+ c +:+ "' to Arduino Controller."
  | error e => "Socket error sending '" +:+ c +:+ "': " +:+ e
  | unexpected e => "Unexpected error sending '" +:+ c +:+ "': " +:+ e
  end.

(** Returns the message and the calls made on the link. *)
Definition send_command_to_arduino_controller (n : net) (command_char : string)
    : string * list relay_call :=
  match socket_fault n with
  | Some x => (error_message command_char x, [])
  | None =>
      let c := connect ARDUINO_CONTROLLER_HOST ARDUINO_CONTROLLER_PORT in
      match connect_fault n with
      | Some x => (error_message command_char x, [c])
      | None =>
          match encode_ascii command_char with
          | None =>
              (error_message command_char (unexpected "UnicodeEncodeError"), [c])
          | Some data =>
              match sendall_fault n with
              | Some x => (error_message command_char x, [c; sendall data])
              | None => (sent_message command_char, [c; sendall data])
              end
          end
      end
  end.

(** [str.lower()] on the characters of [string]; a character outside
    [A-Z] is kept.  (In Python no character outside ASCII lower-cases to one
    of the letters of the five direction names, so the lookup below decides
    as the code does on every string.) *)
Definition lower_char (c : Ascii.ascii) : Ascii.ascii :=
  let n := Ascii.nat_of_ascii c in
  if Nat.leb 65 n && Nat.leb n 90 then Ascii.ascii_of_nat (n + 32) else c.

Fixpoint lower (s : string) : string :=
  match s with
  | EmptyString => EmptyString
  | String c s' => String (lower_char c) (lower s')
  end.

Definition command_map : gmap string string :=
  <["up" := "F"]> (<["down" := "B"]> (<["left" := "L"]>
    (<["right" := "R"]> (<["stop" := "S"]> ∅)))).

(** [jsonify({"status": ..., "message": ...})] with its HTTP status. *)
Record response : Type := mkResponse {
  status : string;
  message : string;
  http_status : nat
}.

Definition api_control_route (n : net) (direction : string)
    : response * list relay_call :=
  match command_map !! lower direction with
  | Some (String a rest as command_char) =>
      let '(msg, calls) := send_command_to_arduino_controller n command_char in
      ({| status := "success"; message := msg; http_status := 200 |}, calls)
  | _ =>
      ({| status := "error"; message := "Invalid direction"; http_status := 400 |}, [])
  end.

End Relay.

(** ** The handler in its process

    The transitions of one [CameraHandler]: calls of [start] and [stop] and
    the moves of its capture threads, in any order, from the state the
    constructor leaves. *)

Definition new_world (avail : bool) (res : nat * nat) (fps quality : nat) : world :=
  {| self := __init__ avail res fps quality; cameras := []; threads := [] |}.

Inductive sys_step (avail : bool) : world -> world -> Prop :=
| sys_start env w : sys_step avail w (snd (start avail env w))
| sys_stop during w : sys_step avail w (snd (stop avail during w))
| sys_thread tid a w : sys_step avail w (snd (_capture_loop avail tid a w)).

Definition reachable (avail : bool) (w : world) : Prop :=
  exists res fps quality, rtc (sys_step avail) (new_world avail res fps quality) w.

Definition is_set {A} (a : attr A) : Prop :=
  match a with Is _ => True | Unset => False end.

(** Every attribute that [__init__] assigns when the capability is there. *)
Definition constructed (h : CameraHandler) : Prop :=
  is_set (camera h) /\ is_set (frame_bytes h) /\ is_set (running h) /\
  is_set (lock h) /\ is_set (resolution h) /\ is_set (framerate h) /\
  is_set (jpeg_quality h) /\ is_set (thread h) /\ is_set (last_frame_time h).

(** ** Predicates, expected results and sample states used in the proofs *)

(** What a move of a capture thread does to the handler: nothing, one
    publish, or the exit block. *)
Definition thread_effect (w w' : world) : Prop :=
  (self w' = self w /\ cameras w' = cameras w) \/
  (exists jpeg t,
      running (self w) = Is true /\
      self w' = with_last_frame_time t (with_frame_bytes (Some jpeg) (self w)) /\
      cameras w' = cameras w) \/
  (self w' = with_camera None (with_running false (self w)) /\
   length (cameras w') = length (cameras w)).

(** The environment makes the open or the configuration of the device fail. *)
Definition fails_before_thread (env : start_env) : Prop :=
  open_fault env <> None \/ resolution_fault env <> None \/
  framerate_fault env <> None.

Definition no_fault (env : start_env) : Prop :=
  open_fault env = None /\ resolution_fault env = None /\
  framerate_fault env = None /\ thread_fault env = None.

(** The state [Stopped]: flag down, no device held. *)
Definition Stopped (w : world) : Prop :=
  running (self w) = Is false /\ camera (self w) = Is None.

Definition env_ok : start_env :=
  {| open_fault := None; resolution_fault := None; framerate_fault := None;
     thread_fault := None; close_fault := None |}.

Definition env_no_device : start_env :=
  {| open_fault := Some PiCameraError; resolution_fault := None;
     framerate_fault := None; thread_fault := None; close_fault := None |}.

Definition env_bad_framerate : start_env :=
  {| open_fault := None; resolution_fault := None;
     framerate_fault := Some PiCameraError; thread_fault := None;
     close_fault := None |}.

(** The frame rate is refused, and [close()] of the device raises too. *)
Definition env_bad_framerate_bad_close : start_env :=
  {| open_fault := None; resolution_fault := None;
     framerate_fault := Some PiCameraError; thread_fault := None;
     close_fault := Some PiCameraError |}.

Definition sample_jpeg : bytes := [Byte.xff; Byte.xd8; Byte.xff; Byte.xd9].

(** The handler as [main] builds it. *)
Definition w_new : world := new_world true (640, 480) 20 85.

(** After a successful [start]: device 0 open, thread 0 spawned. *)
Definition w_running : world := snd (start true env_ok w_new).

(** After thread 0 has entered its loop and published one frame at time 10. *)
Definition w_live : world :=
  run_threads true [(0, Enter); (0, Deliver (Frame sample_jpeg 10%float))] w_running.

(** [stop] on [w_live] when [join] times out with thread 0 still waiting for
    the device: the state in which the end of [stop] begins. *)
Definition w_wedged : world := snd (stop_head true [] w_live).

(** An interleaving of the end of [stop] with the exit of the thread: both
    pass the test of [self.camera.closed] before either calls [close()]. *)
Definition both_test_then_close : list Teardown.who :=
  [Teardown.Stopper; Teardown.Stopper; Teardown.Stopper;
   Teardown.Capture; Teardown.Capture; Teardown.Capture; Teardown.Capture;
   Teardown.Stopper; Teardown.Capture;
   Teardown.Stopper; Teardown.Capture; Teardown.Stopper].

(** Another one: the thread runs its whole block between the second and
    the third read of [self.camera] in [stop]. *)
Definition thread_clears_between_tests : list Teardown.who :=
  [Teardown.Stopper; Teardown.Stopper;
   Teardown.Capture; Teardown.Capture; Teardown.Capture; Teardown.Capture;
   Teardown.Capture; Teardown.Capture;
   Teardown.Stopper].

(** The calls of [capture_continuous] that end the loop on their own: an
    exception, or the end of the iterator. *)
Definition ends_capture (ev : event) : Prop :=
  match ev with
  | Frame _ _ => False
  | Fault _ | EndOfStream => True
  end.

(** One publish at time 10 followed by one read at time 10.5. *)
Definition slot_after_read : FrameSlot.state :=
  FrameSlot.do_r_leave 0 (Some (sample_jpeg, 10%float))
    (FrameSlot.do_r_load_result 0 10%float
       (FrameSlot.do_r_test_time 0 10.5%float
          (FrameSlot.do_r_test_bytes 0
             (FrameSlot.do_r_enter 0
                (FrameSlot.do_w_leave
                   (FrameSlot.do_w_store_time sample_jpeg 10%float
                      (FrameSlot.do_w_store_bytes sample_jpeg
                         (FrameSlot.do_w_enter sample_jpeg FrameSlot.init)))))))).

(** A second payload. *)
Definition other_jpeg : bytes := [Byte.xff; Byte.xd8; Byte.x00; Byte.xff; Byte.xd9].

(** Two publishes, at times 10 and 20, and a read at time 10.5 that runs
    between the two stores of the second publish. *)
Definition slot_torn : FrameSlot.state :=
  FrameSlot.do_w_leave
    (FrameSlot.do_w_store_time other_jpeg 20%float
       (FrameSlot.do_r_leave 0 (Some (other_jpeg, 10%float))
          (FrameSlot.do_r_load_result 0 10%float
             (FrameSlot.do_r_test_time 0 10.5%float
                (FrameSlot.do_r_test_bytes 0
                   (FrameSlot.do_r_enter 0
                      (FrameSlot.do_w_store_bytes other_jpeg
                         (FrameSlot.do_w_enter other_jpeg
                            (FrameSlot.do_w_leave
                               (FrameSlot.do_w_store_time sample_jpeg 10%float
                                  (FrameSlot.do_w_store_bytes sample_jpeg
                                     (FrameSlot.do_w_enter sample_jpeg
                                        FrameSlot.init)))))))))))).

(** The table of the interface: which command character a direction name
    stands for. *)
Definition spec_command (d : string) : option Ascii.ascii :=
  if String.eqb d "up" then Some "F"%char
  else if String.eqb d "down" then Some "B"%char
  else if String.eqb d "left" then Some "L"%char
  else if String.eqb d "right" then Some "R"%char
  else if String.eqb d "stop" then Some "S"%char
  else None.

(** The calls on the relay link that sending the one character [c] makes,
    up to the first call that fails. *)
Definition relay_calls_for (n : Relay.net) (c : Ascii.ascii) : list Relay.relay_call :=
  match Relay.socket_fault n with
  | Some _ => []
  | None =>
      Relay.connect Relay.ARDUINO_CONTROLLER_HOST Relay.ARDUINO_CONTROLLER_PORT ::
      match Relay.connect_fault n with
      | Some _ => []
      | None => [Relay.sendall [Ascii.byte_of_ascii c]]
      end
  end.

(** The first socket call that fails. *)
Definition first_fault (n : Relay.net) : option Relay.sock_exn :=
  match Relay.socket_fault n with
  | Some x => Some x
  | None =>
      match Relay.connect_fault n with
      | Some x => Some x
      | None => Relay.sendall_fault n
      end
  end.

Definition net_ok : Relay.net :=
  {| Relay.socket_fault := None; Relay.connect_fault := None;
     Relay.sendall_fault := None |}.

Definition net_connect_timeout : Relay.net :=
  {| Relay.socket_fault := None; Relay.connect_fault := Some Relay.timeout;
     Relay.sendall_fault := None |}.

(** ** Predicates on the release of the device *)

(** The block is past its call of [close()], made or skipped. *)
Definition past_close (p : Teardown.pc) : bool :=
  match p with
  | Teardown.AtClearCamera | Teardown.AtClearFrame | Teardown.Ended => true
  | _ => false
  end.

(** The block is past its guarded close, or has been left by an exception. *)
Definition past_guard (p : Teardown.pc) : bool :=
  match p with
  | Teardown.AtClearCamera | Teardown.AtClearFrame | Teardown.Ended
  | Teardown.Escaped _ => true
  | _ => false
  end.

(** The block is past [self.camera = None], or has been left by an
    exception. *)
Definition past_clear (p : Teardown.pc) : bool :=
  match p with
  | Teardown.AtClearFrame | Teardown.Ended | Teardown.Escaped _ => true
  | _ => false
  end.

(** The one exception that leaves a block: [None] has no [closed]. *)
Definition escape_ok (p : Teardown.pc) : Prop :=
  match p with
  | Teardown.Escaped e => e = AttributeError "closed"
  | _ => True
  end.

(** What every interleaving keeps, for the device [d] that the handler
    held at the start, with [n0] calls of [close()] on it before. *)
Definition teardown_inv (d n0 : nat) (raises : option exn)
    (s : Teardown.state) : Prop :=
  exists dev,
    cameras (Teardown.store s) !! d = Some dev /\
    close_raises dev = raises /\
    (camera (self (Teardown.store s)) = Is (Some d) \/
     camera (self (Teardown.store s)) = Is None) /\
    n0 <= close_calls dev /\
    close_calls dev <=
      n0 + Nat.b2n (past_close (Teardown.stopper s))
         + Nat.b2n (past_close (Teardown.capture s)) /\
    (closed dev = true \/ camera (self (Teardown.store s)) = Is None \/
     past_guard (Teardown.stopper s) = true \/
     past_guard (Teardown.capture s) = true -> n0 + 1 <= close_calls dev) /\
    (n0 + 1 <= close_calls dev -> raises = None -> closed dev = true) /\
    (raises <> None -> closed dev = false) /\
    (past_clear (Teardown.stopper s) = true \/
     past_clear (Teardown.capture s) = true ->
     camera (self (Teardown.store s)) = Is None) /\
    (Teardown.stopper s = Teardown.Ended ->
     frame_bytes (self (Teardown.store s)) = Is None) /\
    Teardown.stopper s <> Teardown.AtRunning /\
    Teardown.capture s <> Teardown.AtClearFrame /\
    escape_ok (Teardown.stopper s) /\ escape_ok (Teardown.capture s).

(** One block after the other: [a] first, then the other one. *)
Definition in_turn (a : Teardown.who) : list Teardown.who :=
  match a with
  | Teardown.Stopper =>
      replicate 7 Teardown.Stopper ++ replicate 7 Teardown.Capture
  | Teardown.Capture =>
      replicate 7 Teardown.Capture ++ replicate 7 Teardown.Stopper
  end.

(** ** Further predicates on the handler *)

(** The device [start] leaves open on success. *)
Definition configured_camera (res : nat * nat) (fps : nat)
    (close_raises : option exn) : PiCamera :=
  {| closed := false; close_calls := 0;
     cam_resolution := Some res; cam_framerate := Some fps;
     close_raises := close_raises |}.


(** What a call of [start] does: nothing, or it ends with the flag down
    (stopped, or with the handle kept when [close()] raised), or it ends
    running on a new configured device with a new thread. *)
Definition start_effect (env : start_env) (w w' : world) : Prop :=
  w' = w \/
  running (self w') = Is false \/
  (exists res fps,
     resolution (self w) = Is res /\ framerate (self w) = Is fps /\
     self w' = with_thread (Some (length (threads w)))
                 (with_running true
                    (with_camera (Some (length (cameras w))) (self w))) /\
     cameras w' = cameras w ++ [configured_camera res fps (close_fault env)] /\
     threads w' = threads w ++ [Spawned]).

Definition env_thread_fails : start_env :=
  {| open_fault := None; resolution_fault := None; framerate_fault := None;
     thread_fault := Some (OtherException "can't start new thread");
     close_fault := None |}.

(** ** The status endpoint and the relay probe *)

Module Status.


(** What the probe does: it returns a boolean, or an exception that is not a
    [socket.error] leaves it. *)
Inductive probe_outcome : Type :=
| returns (b : bool)
| raises (e : string).

(** [except socket.error: return False]; [socket.timeout] is a
    [socket.error]. *)
Definition probe_except (x : Relay.sock_exn) : probe_outcome :=
  match x with
  | Relay.timeout | Relay.error _ => returns false
  | Relay.unexpected e => raises e
  end.

(** Returns the outcome and the calls made on the relay link. *)
Definition check_arduino_controller_connection (n : Relay.net)
    : probe_outcome * list Relay.relay_call :=
  match Relay.socket_fault n with
  | Some x => (probe_except x, [])
  | None =>
      let c := Relay.connect Relay.ARDUINO_CONTROLLER_HOST
                 Relay.ARDUINO_CONTROLLER_PORT in
      match Relay.connect_fault n with
      | Some x => (probe_except x, [c])
      | None => (returns true, [c])
      end
  end.



End Status.

(** ** The tunnel

    [start_cloudflared_tunnel] reads the output of the [cloudflared]
    process line by line.  A line is a list of characters; a character
    outside ASCII stands as its UTF-8 bytes, which none of the classes and
    literals below contains.  The environment of a call says what [Popen]
    does, what each [readline] gives with the reading of [time.time()] that
    follows it, and whether [wait(timeout=2)] expires. *)

Module Tunnel.

Definition str : Type := list ascii.

Definition lit (s : string) : str := String.list_ascii_of_string s.

(** *** The regular expressions of [re], as far as the code uses them *)

Inductive regex : Type :=
| Lit (l : str)                 (* the characters of l, one after the other *)
| Plus (cls : ascii -> bool)    (* [...]+ , greedy *)
| Cat (r1 r2 : regex).

Fixpoint strip_prefix (l s : str) : option str :=
  match l, s with
  | [], _ => Some s
  | a :: l', b :: s' => if Ascii.eqb a b then strip_prefix l' s' else None
  | _ :: _, [] => None
  end.

(** One or more characters of the class, then what [k] accepts; the longest
    run is tried first, then the shorter ones. *)
Fixpoint match_plus (cls : ascii -> bool) (k : str -> option str) (s : str)
    : option str :=
  match s with
  | c :: s' =>
      if cls c then
        match match_plus cls k s' with
        | Some rest => Some rest
        | None => k s'
        end
      else None
  | [] => None
  end.

(** [match_re r k s]: match [r] at the start of [s], then [k] on what is
    left; the result is what is left after the whole match. *)
Fixpoint match_re (r : regex) (k : str -> option str) (s : str) : option str :=
  match r with
  | Lit l =>
      match strip_prefix l s with
      | Some s' => k s'
      | None => None
      end
  | Plus cls => match_plus cls k s
  | Cat r1 r2 => match_re r1 (match_re r2 k) s
  end.

(** [re.search(r, s).group(0)]: the match at the leftmost position that has
    one; [None] when there is none. *)
Fixpoint re_search (r : regex) (s : str) : option str :=
  match match_re r Some s with
  | Some rest => Some (take (length s - length rest) s)
  | None =>
      match s with
      | _ :: s' => re_search r s'
      | [] => None
      end
  end.

Definition in_range (lo hi : nat) (c : ascii) : bool :=
  Nat.leb lo (nat_of_ascii c) && Nat.leb (nat_of_ascii c) hi.

(** [[-a-zA-Z0-9._]] *)
Definition url_char (c : ascii) : bool :=
  Ascii.eqb c "-" || in_range 97 122 c || in_range 65 90 c ||
  in_range 48 57 c || Ascii.eqb c "." || Ascii.eqb c "_".

(** [r"(https://[-a-zA-Z0-9._]+\.trycloudflare\.com)"]; its group 1 is the
    whole match. *)
Definition tunnel_url_re : regex :=
  Cat (Lit (lit "https://")) (Cat (Plus url_char) (Lit (lit ".trycloudflare.com"))).

(** *** String methods *)

(** [needle in hay] *)
Fixpoint contains (needle hay : str) : bool :=
  match strip_prefix needle hay with
  | Some _ => true
  | None =>
      match hay with
      | _ :: hay' => contains needle hay'
      | [] => false
      end
  end.

Definition lower (s : str) : str := map Relay.lower_char s.

(** [str.isspace] on ASCII: tab to carriage return, the four separators and
    the space. *)
Definition is_space (c : ascii) : bool :=
  in_range 9 13 c || in_range 28 32 c.

Fixpoint lstrip (s : str) : str :=
  match s with
  | c :: s' => if is_space c then lstrip s' else s
  | [] => []
  end.

(** [str.strip()] *)
Definition strip (s : str) : str := reverse (lstrip (reverse (lstrip s))).

(** *** The process and the globals *)

Inductive proc_call : Type :=
| terminate
| wait (timeout : Z)
| kill.

Record globals : Type := mkGlobals {
  tunnel_url_global : option str;
  tunnel_process_global : option nat;
  (* every Popen object ever built, by identity, with the calls it got *)
  processes : list (list proc_call)
}.

Inductive popen_outcome : Type :=
| spawned
| file_not_found          (* FileNotFoundError *)
| popen_error.            (* any other Exception *)

Inductive read_outcome : Type :=
| line (l : str)
| read_error.             (* readline raises *)

Record env : Type := mkEnv {
  popen : popen_outcome;
  start_time : float;
  output : list (read_outcome * float);
  wait_expires : bool     (* wait(timeout=2) raises TimeoutExpired *)
}.

Definition call (pid : nat) (c : proc_call) (g : globals) : globals :=
  {| tunnel_url_global := tunnel_url_global g;
     tunnel_process_global := tunnel_process_global g;
     processes := alter (fun cs => cs ++ [c]) pid (processes g) |}.

Definition set_process (p : option nat) (g : globals) : globals :=
  {| tunnel_url_global := tunnel_url_global g;
     tunnel_process_global := p;
     processes := processes g |}.

Definition set_url (u : option str) (g : globals) : globals :=
  {| tunnel_url_global := u;
     tunnel_process_global := tunnel_process_global g;
     processes := processes g |}.

(** How the [for] loop over the output ends. *)
Inductive scan_result : Type :=
| found (url : str)   (* return tunnel_url_global *)
| gave_up             (* break, or the end of the output *)
| crashed.            (* readline raised *)

Definition timeout_seconds : float := 30%float.

(** [for line in iter(tunnel_process_global.stdout.readline, ''): ...] *)
Fixpoint scan (t0 : float) (out : list (read_outcome * float)) : scan_result :=
  match out with
  | [] => gave_up
  | (read_error, _) :: _ => crashed
  | (line [], _) :: _ => gave_up      (* the sentinel '' of iter *)
  | (line l, now) :: rest =>
      match re_search tunnel_url_re (strip l) with
      | Some url => found url
      | None =>
          if contains (lit "failed") (lower (strip l))
             || contains (lit "error") (lower (strip l))
          then gave_up
          else if (timeout_seconds <? now - t0)%float then gave_up
          else scan t0 rest
      end
  end.

(** [terminate(); try: wait(timeout=2) except TimeoutExpired: kill()] *)
Definition terminate_wait_kill (expires : bool) (pid : nat) (g : globals) : globals :=
  let g1 := call pid (wait 2) (call pid terminate g) in
  if expires then call pid kill g1 else g1.

(** [try: terminate(); wait(timeout=2) except: pass] *)
Definition terminate_wait (pid : nat) (g : globals) : globals :=
  call pid (wait 2) (call pid terminate g).

Definition start_cloudflared_tunnel (ENABLE_TUNNEL : bool) (e : env) (g : globals)
    : option str * globals :=
  if negb ENABLE_TUNNEL then (None, g)
  else
    match popen e with
    | file_not_found => (None, set_process None g)
    | popen_error =>
        (None,
         set_process None
           (match tunnel_process_global g with
            | Some old => terminate_wait old g
            | None => g
            end))
    | spawned =>
        let pid := length (processes g) in
        let g1 := {| tunnel_url_global := tunnel_url_global g;
                     tunnel_process_global := Some pid;
                     processes := processes g ++ [[]] |} in
        match scan (start_time e) (output e) with
        | found url => (Some url, set_url (Some url) g1)
        | gave_up =>
            (None, set_process None (terminate_wait_kill (wait_expires e) pid g1))
        | crashed =>
            (None, set_process None (terminate_wait pid g1))
        end
    end.

End Tunnel.

(** A line after which the loop of the tunnel goes on reading: not the
    sentinel, no URL, no word of failure, and no timeout at the reading [now]
    of the clock. *)
Definition keeps_reading (t0 : float) (item : Tunnel.read_outcome * float) : bool :=
  match item with
  | (Tunnel.line (c :: cs), now) =>
      match Tunnel.re_search Tunnel.tunnel_url_re (Tunnel.strip (c :: cs)) with
      | Some _ => false
      | None =>
          negb (Tunnel.contains (Tunnel.lit "failed")
                  (Tunnel.lower (Tunnel.strip (c :: cs)))
                || Tunnel.contains (Tunnel.lit "error")
                     (Tunnel.lower (Tunnel.strip (c :: cs))))
          && negb (Tunnel.timeout_seconds <? now - t0)%float
      end
  | _ => false
  end.

(** The calls a process spawned by [start_cloudflared_tunnel] has received
    when the call returns without a URL. *)
Definition calls_on_failure (e : Tunnel.env) : list Tunnel.proc_call :=
  match Tunnel.scan (Tunnel.start_time e) (Tunnel.output e) with
  | Tunnel.crashed => [Tunnel.terminate; Tunnel.wait 2]
  | _ =>
      if Tunnel.wait_expires e
      then [Tunnel.terminate; Tunnel.wait 2; Tunnel.kill]
      else [Tunnel.terminate; Tunnel.wait 2]
  end.

Definition cloudflared_banner : Tunnel.str :=
  Tunnel.lit "2024-01-01T00:00:00Z INF |  https://blue-sky-42.trycloudflare.com  |".

Definition tunnel_globals0 : Tunnel.globals :=
  {| Tunnel.tunnel_url_global := None; Tunnel.tunnel_process_global := None;
     Tunnel.processes := [] |}.


(** ** [main]: the address it announces *)

Module Main.

(** [if ENABLE_TUNNEL and wait_for_internet(): public_url =
    start_cloudflared_tunnel(); if public_url: access_url = public_url].
    [internet] is the result of [wait_for_internet], [local_url] the text
    [http://{LOCAL_IP}:{FLASK_PORT}].  Returns [access_url]. *)
Definition main_tunnel (ENABLE_TUNNEL internet : bool) (e : Tunnel.env)
    (local_url : Tunnel.str) (g : Tunnel.globals) : Tunnel.str * Tunnel.globals :=
  if ENABLE_TUNNEL && internet then
    match Tunnel.start_cloudflared_tunnel ENABLE_TUNNEL e g with
    | (Some (c :: public_url), g') => (c :: public_url, g')
    | (_, g') => (local_url, g')
    end
  else (local_url, g).

End Main.

(** * Proofs *)

(** ** Running the monad *)

Lemma bind_ok {A B} (m : M A) (k : A -> M B) w a w' :
  m w = (Ok a, w') -> bind m k w = k a w'.
Proof. unfold bind. by intros ->. Qed.

Lemma bind_raise {A B} (m : M A) (k : A -> M B) w e w' :
  m w = (Raise e, w') -> bind m k w = (Raise e, w').
Proof. unfold bind. by intros ->. Qed.

Lemma getattr_is {A} name (field : CameraHandler -> attr A) w v :
  field (self w) = Is v -> getattr name field w = (Ok v, w).
Proof. unfold getattr. by intros ->. Qed.

Lemma is_set_Is {A} (a : attr A) : is_set a -> exists v, a = Is v.
Proof. destruct a; [done | eauto]. Qed.

(** ** Releasing the device *)

Lemma lookup_snoc_length {A} (l : list A) (x : A) : (l ++ [x]) !! length l = Some x.
Proof. by apply list_lookup_middle. Qed.

Lemma alter_snoc {A} (f : A -> A) (l : list A) (x : A) :
  alter f (length l) (l ++ [x]) = l ++ [f x].
Proof.
  replace (length l) with (length l + 0) by lia.
  by rewrite alter_app_r.
Qed.

(** [self.camera.close()] on a held device: the call is made, whatever it
    raises. *)
Lemma camera_close_held w d :
  camera (self w) = Is (Some d) ->
  exists r,
    camera_close w =
      (r, {| self := self w; cameras := alter close_device d (cameras w);
             threads := threads w |}).
Proof.
  intros Hc. unfold camera_close.
  rewrite (bind_ok _ _ _ _ _ (getattr_is _ _ _ _ Hc)).
  unfold bind, modify_camera, close_outcome. cbn [cameras].
  destruct (alter close_device d (cameras w) !! d) as [dev|]; [|by eexists].
  destruct (close_raises dev); by eexists.
Qed.

Lemma camera_close_snoc h cams dev thr :
  camera h = Is (Some (length cams)) ->
  camera_close {| self := h; cameras := cams ++ [dev]; threads := thr |} =
    (match close_raises dev with Some e => Raise e | None => Ok tt end,
     {| self := h; cameras := cams ++ [close_device dev]; threads := thr |}).
Proof.
  intros Hc. unfold camera_close, getattr, bind. cbn [self]. rewrite Hc.
  unfold modify_camera, close_outcome. cbn [self cameras threads].
  rewrite alter_snoc, lookup_snoc_length.
  cbn [close_device close_raises]. by destruct (close_raises dev).
Qed.

(** Runs [start] on a stopped handler once the faults are known. *)
Ltac run_start :=
  cbn; rewrite ?alter_snoc; unfold bind;
  rewrite ?camera_close_snoc by reflexivity; cbn.

(** The guarded close returns, whatever [close()] does, and leaves the
    handler and the threads as they are. *)
Lemma close_if_open_frame w :
  is_set (camera (self w)) ->
  exists w',
    close_if_open w = (Ok tt, w') /\
    self w' = self w /\ threads w' = threads w /\
    length (cameras w') = length (cameras w).
Proof.
  intros [held Hc]%is_set_Is. unfold close_if_open.
  rewrite (bind_ok _ _ _ _ _ (getattr_is _ _ _ _ Hc)).
  destruct held as [d|]; cbn [truthy]; [|by exists w].
  rewrite (bind_ok _ _ _ _ _ (getattr_is _ _ _ _ Hc)). cbn [truthy].
  unfold camera_closed at 1.
  unfold bind at 1. rewrite (bind_ok _ _ _ _ _ (getattr_is _ _ _ _ Hc)).
  destruct (cameras w !! d) as [dev|]; [|by exists w].
  destruct (closed dev); cbn [negb]; [by exists w|].
  unfold try_except.
  destruct (camera_close_held w d Hc) as [r ->].
  destruct r as [[]|e]; (eexists; split; [reflexivity|]); cbn [self threads cameras];
    by rewrite length_alter.
Qed.

Lemma capture_finally_spec w :
  is_set (camera (self w)) ->
  exists w',
    capture_finally w = (Ok tt, w') /\
    self w' = with_camera None (with_running false (self w)) /\
    threads w' = threads w /\
    length (cameras w') = length (cameras w).
Proof.
  intros Hc. unfold capture_finally.
  unfold bind at 1. unfold modify_self at 1.
  match goal with |- context [bind close_if_open _ ?w1] =>
    destruct (close_if_open_frame w1) as (w' & Hrun & Hself & Hthr & Hlen);
      [done|]
  end.
  rewrite (bind_ok _ _ _ _ _ Hrun). unfold modify_self.
  eexists. split; [reflexivity|]. cbn [self threads cameras].
  by rewrite Hself.
Qed.

Lemma capture_exit_finally r w :
  is_set (running (self w)) -> capture_exit r w = capture_finally w.
Proof.
  intros [v Hv]%is_set_Is.
  assert (Hbody : try_except
            (match r with Ok _ => after_loop | Raise e => raise e end)
            capture_except w = (Ok tt, w)).
  { unfold try_except, after_loop, capture_except, raise.
    destruct r as [c|e]; [|destruct e];
      rewrite ?(bind_ok _ _ _ _ _ (getattr_is _ _ _ _ Hv)); done. }
  unfold capture_exit, try_finally. rewrite Hbody.
  by destruct (capture_finally w) as [[[]|e] w'].
Qed.

(** ** One move of a capture thread *)

Lemma in_try_continue tid piece w w1 :
  piece w = (Ok Continue, w1) ->
  in_try tid piece w = set_thread_state tid Capturing w1.
Proof. unfold in_try. by intros ->. Qed.

Lemma in_try_exit tid piece w r w1 :
  piece w = (r, w1) -> r <> Ok Continue ->
  in_try tid piece w =
    (fst (capture_exit r w1),
     snd (set_thread_state tid Finished (snd (capture_exit r w1)))).
Proof.
  unfold in_try. intros -> Hr.
  destruct r as [[]|e]; [done| |]; by destruct (capture_exit _ w1).
Qed.

Lemma in_try_exit_effect tid piece w r :
  constructed (self w) ->
  piece w = (r, w) -> r <> Ok Continue ->
  exists w', in_try tid piece w = (Ok tt, w') /\ thread_effect w w'.
Proof.
  intros Hcons Hpiece Hr.
  rewrite (in_try_exit _ _ _ _ _ Hpiece Hr).
  rewrite capture_exit_finally by apply Hcons.
  destruct (capture_finally_spec w) as (w' & -> & Hself & Hthr & Hlen);
    [apply Hcons|].
  eexists. split; [reflexivity|]. right; right.
  cbn [fst snd set_thread_state self cameras]. done.
Qed.

Lemma capture_loop_spec tid a w :
  constructed (self w) ->
  exists w', _capture_loop true tid a w = (Ok tt, w') /\ thread_effect w w'.
Proof.
  intros Hcons.
  pose proof Hcons as (Hcam & _ & Hrun & Hlock & _ & _ & Hq & _ & _).
  apply is_set_Is in Hcam as [held Hcam]. apply is_set_Is in Hrun as [r Hrun].
  apply is_set_Is in Hlock as [l Hlock]. apply is_set_Is in Hq as [q Hq].
  unfold _capture_loop.
  destruct (threads w !! tid) as [[]|] eqn:Hts; destruct a as [|ev];
    try (exists w; split; [reflexivity | by left]).
  - (* a spawned thread enters *)
    unfold capture_enter. cbn [negb].
    rewrite (bind_ok _ _ w (negb (truthy held)) w)
      by (by rewrite (bind_ok _ _ _ _ _ (getattr_is _ _ _ _ Hcam))).
    destruct held as [d|]; cbn [truthy negb].
    + erewrite in_try_continue; cycle 1.
      * rewrite (bind_ok _ _ _ _ _ (getattr_is _ _ _ _ Hcam)).
        by rewrite (bind_ok _ _ _ _ _ (getattr_is _ _ _ _ Hq)).
      * eexists. split; [reflexivity|]. by left.
    + eexists. split; [reflexivity|]. by left.
  - (* the device call of a capturing thread returns *)
    destruct ev as [jpeg t|e|]; cbn [capture_iteration].
    + destruct r.
      * erewrite in_try_continue; cycle 1.
        -- rewrite (bind_ok _ _ _ _ _ (getattr_is _ _ _ _ Hrun)). cbn [negb].
           by rewrite (bind_ok _ _ _ _ _ (getattr_is _ _ _ _ Hlock)).
        -- eexists. split; [reflexivity|]. right; left. by exists jpeg, t.
      * apply in_try_exit_effect with (r := Ok LoopDone); try done.
        by rewrite (bind_ok _ _ _ _ _ (getattr_is _ _ _ _ Hrun)).
    + by apply in_try_exit_effect with (r := Raise e).
    + by apply in_try_exit_effect with (r := Ok LoopDone).
Qed.

(** ** The handler stays constructed *)

Lemma thread_effect_constructed w w' :
  constructed (self w) -> thread_effect w w' -> constructed (self w').
Proof.
  intros Hcons [[Hs Hc]|[(jpeg & t & _ & Hs & Hc)|(Hs & _)]].
  - by rewrite Hs.
  - rewrite Hs. unfold constructed in *. cbn. tauto.
  - rewrite Hs. unfold constructed in *. cbn. tauto.
Qed.

Lemma capture_loop_constructed tid a w :
  constructed (self w) -> constructed (self (snd (_capture_loop true tid a w))).
Proof.
  intros HI. destruct (capture_loop_spec tid a w HI) as (w' & -> & Heff).
  by apply (thread_effect_constructed w).
Qed.

Lemma run_threads_cons avail tid a s w :
  run_threads avail ((tid, a) :: s) w =
    run_threads avail s (snd (_capture_loop avail tid a w)).
Proof. reflexivity. Qed.

Lemma run_threads_constructed s w :
  constructed (self w) -> constructed (self (run_threads true s w)).
Proof.
  revert w. induction s as [|[tid a] s IH]; intros w HI; [done|].
  cbn. apply IH. by apply capture_loop_constructed.
Qed.

(** Once [running] is false and [self.camera] is [None], a capture thread
    changes neither the handler nor the devices, whatever it does. *)
Lemma capture_loop_quiescent avail tid a w :
  running (self w) = Is false -> camera (self w) = Is None ->
  exists thr,
    _capture_loop avail tid a w =
      (Ok tt, {| self := self w; cameras := cameras w; threads := thr |}).
Proof.
  destruct w as [[cam fb run lk res fr jq th lft] cams thr].
  cbn [self running camera]. intros -> ->.
  unfold _capture_loop. cbn [threads].
  destruct (thr !! tid) as [[]|]; destruct a as [|[jpeg t|e|]];
    try (eexists; reflexivity).
  - destruct avail; eexists; reflexivity.
  - destruct e; eexists; reflexivity.
Qed.

Lemma run_threads_quiescent avail s w :
  running (self w) = Is false -> camera (self w) = Is None ->
  exists thr,
    run_threads avail s w = {| self := self w; cameras := cameras w; threads := thr |}.
Proof.
  revert w. induction s as [|[tid a] s IH]; intros w Hr Hc.
  - exists (threads w). by destruct w.
  - cbn. destruct (capture_loop_quiescent avail tid a w Hr Hc) as [thr ->].
    cbn [snd]. apply (IH {| self := self w; cameras := cameras w; threads := thr |}); done.
Qed.

Lemma thread_effect_length w w' :
  thread_effect w w' -> length (cameras w') = length (cameras w).
Proof.
  intros [[_ ->]|[(? & ? & _ & _ & ->)|(_ & Hlen)]]; done.
Qed.

Lemma run_threads_length s w :
  constructed (self w) ->
  length (cameras (run_threads true s w)) = length (cameras w).
Proof.
  revert w. induction s as [|[tid a] s IH]; intros w HI; [done|].
  rewrite run_threads_cons, IH by by apply capture_loop_constructed.
  destruct (capture_loop_spec tid a w HI) as (w' & -> & Heff).
  by apply thread_effect_length.
Qed.

Lemma thread_effect_thread w w' :
  thread_effect w w' -> thread (self w') = thread (self w).
Proof.
  intros [[-> _]|[(? & ? & _ & -> & _)|(-> & _)]]; done.
Qed.

Lemma run_threads_thread s w :
  constructed (self w) -> thread (self (run_threads true s w)) = thread (self w).
Proof.
  revert w. induction s as [|[tid a] s IH]; intros w HI; [done|].
  rewrite run_threads_cons, IH by by apply capture_loop_constructed.
  destruct (capture_loop_spec tid a w HI) as (w' & -> & Heff).
  by apply thread_effect_thread.
Qed.

Lemma thread_effect_running_false w w' :
  running (self w) = Is false -> thread_effect w w' ->
  running (self w') = Is false.
Proof.
  intros Hr [[-> _]|[(? & ? & Hr' & _ & _)|(-> & _)]]; [done|congruence|done].
Qed.

Lemma run_threads_running_false s w :
  constructed (self w) -> running (self w) = Is false ->
  running (self (run_threads true s w)) = Is false.
Proof.
  revert w. induction s as [|[tid a] s IH]; intros w HI Hr; [done|].
  rewrite run_threads_cons.
  destruct (capture_loop_spec tid a w HI) as (w' & Hrun & Heff).
  apply IH.
  - by apply capture_loop_constructed.
  - rewrite Hrun. by apply (thread_effect_running_false w).
Qed.

(** ** [stop] *)

(** [stop] up to the return of [join]: the flag is down, and the threads
    have moved if there was a live one to wait for. *)
Lemma stop_head_spec s w :
  constructed (self w) ->
  exists w',
    stop_head true s w = (Ok tt, w') /\
    (w' = snd (modify_self (with_running false) w) \/
     w' = run_threads true s (snd (modify_self (with_running false) w))) /\
    constructed (self w') /\ running (self w') = Is false /\
    length (cameras w') = length (cameras w).
Proof.
  intros Hcons. unfold stop_head.
  unfold bind at 1. unfold modify_self at 1. cbn [snd].
  set (w1 := {| self := with_running false (self w); cameras := cameras w;
                threads := threads w |}).
  assert (Hcons1 : constructed (self w1)).
  { unfold constructed in *. cbn. tauto. }
  destruct (is_set_Is (thread (self w1))) as [t Ht]; [apply Hcons1|].
  rewrite (bind_ok _ _ _ _ _ (getattr_is _ _ _ _ Ht)).
  assert (Hstay : exists w', (Ok tt, w1) = (Ok tt, w') /\
    (w' = w1 \/ w' = run_threads true s w1) /\
    constructed (self w') /\ running (self w') = Is false /\
    length (cameras w') = length (cameras w)).
  { exists w1. split; [done|]. split; [by left|]. done. }
  destruct t as [tid|]; cbn [truthy]; [|exact Hstay].
  unfold Thread_is_alive at 1.
  unfold bind at 1. rewrite (bind_ok _ _ _ _ _ (getattr_is _ _ _ _ Ht)).
  destruct (threads w1 !! tid) as [ts|]; [|exact Hstay].
  destruct (alive ts); [|exact Hstay].
  unfold bind at 1. unfold Thread_join at 1.
  exists (run_threads true s w1).
  pose proof (run_threads_thread s w1 Hcons1) as Ht'. rewrite Ht in Ht'.
  split.
  { unfold Thread_is_alive.
    unfold bind at 1. rewrite (bind_ok _ _ _ _ _ (getattr_is _ _ _ _ Ht')).
    by destruct (threads (run_threads true s w1) !! tid). }
  split; [by right|]. split; [by apply run_threads_constructed|].
  split; [by apply run_threads_running_false|].
  by rewrite run_threads_length.
Qed.

Lemma stop_tail_spec w :
  is_set (camera (self w)) ->
  exists w',
    stop_tail w = (Ok tt, w') /\
    self w' = with_frame_bytes None (with_camera None (self w)) /\
    threads w' = threads w /\
    length (cameras w') = length (cameras w).
Proof.
  intros Hc. unfold stop_tail.
  destruct (close_if_open_frame w Hc) as (w1 & Hrun & Hself & Hthr & Hlen).
  rewrite (bind_ok _ _ _ _ _ Hrun). unfold bind, modify_self.
  eexists. split; [reflexivity|]. cbn [self cameras threads].
  by rewrite Hself.
Qed.

Lemma stop_spec s w :
  constructed (self w) ->
  exists w',
    stop true s w = (Ok tt, w') /\ constructed (self w') /\
    running (self w') = Is false /\ camera (self w') = Is None /\
    frame_bytes (self w') = Is None /\
    length (cameras w') = length (cameras w).
Proof.
  intros Hcons. unfold stop. cbn [negb].
  destruct (stop_head_spec s w Hcons) as (w1 & Hhead & _ & Hcons1 & Hr1 & Hlen1).
  rewrite (bind_ok _ _ _ _ _ Hhead).
  destruct (stop_tail_spec w1) as (w2 & Htail & Hself & Hthr & Hlen);
    [apply Hcons1|].
  exists w2. split; [done|]. rewrite Hself, Hlen, Hlen1.
  split; [unfold constructed in *; cbn; tauto|].
  split; [exact Hr1|]. done.
Qed.

(** [stop] on a handler whose flag is down, that holds no device and whose
    slot is empty changes neither the handler nor the devices. *)
Lemma stop_quiescent during w :
  constructed (self w) ->
  running (self w) = Is false -> camera (self w) = Is None ->
  frame_bytes (self w) = Is None ->
  exists thr,
    stop true during w =
      (Ok tt, {| self := self w; cameras := cameras w; threads := thr |}).
Proof.
  intros Hcons Hr Hc Hfb. unfold stop. cbn [negb].
  assert (Hself : with_running false (self w) = self w).
  { destruct (self w). cbn in *. by subst. }
  assert (Hw1 : snd (modify_self (with_running false) w) = w).
  { unfold modify_self. cbn [snd]. rewrite Hself. by destruct w. }
  destruct (stop_head_spec during w Hcons) as (w1 & Hhead & Hw & _).
  rewrite (bind_ok _ _ _ _ _ Hhead). rewrite Hw1 in Hw.
  assert (exists thr, w1 = {| self := self w; cameras := cameras w; threads := thr |})
    as [thr ->].
  { destruct Hw as [->| ->]; [exists (threads w); by destruct w|].
    by apply run_threads_quiescent. }
  exists thr.
  unfold stop_tail, close_if_open, bind, getattr, modify_self.
  cbn [self cameras threads]. rewrite Hc. cbn.
  replace (with_frame_bytes None (with_camera None (self w))) with (self w); [done|].
  destruct (self w). cbn in *. by subst.
Qed.

(** ** [start] *)

(** [start] on a handler that holds a device, or whose flag is up, returns
    at one of its two guards. *)
Lemma start_noop avail env w :
  is_set (camera (self w)) ->
  running (self w) = Is true \/ (exists d, camera (self w) = Is (Some d)
                                  /\ is_set (running (self w))) ->
  start avail env w = (Ok tt, w).
Proof.
  intros [held Hc]%is_set_Is Hcase. unfold start.
  destruct avail; cbn [negb].
  - rewrite (bind_ok _ _ w (is_not_None held) w)
      by (by rewrite (bind_ok _ _ _ _ _ (getattr_is _ _ _ _ Hc))).
    destruct Hcase as [Hr|(d & Hd & [r Hr]%is_set_Is)].
    + destruct held; cbn [is_not_None];
        by rewrite (bind_ok _ _ _ _ _ (getattr_is _ _ _ _ Hr)).
    + rewrite Hc in Hd. injection Hd as ->. cbn [is_not_None].
      by rewrite (bind_ok _ _ _ _ _ (getattr_is _ _ _ _ Hr)).
  - assert (exists r, running (self w) = Is r) as [r Hr].
    { destruct Hcase as [?|(? & _ & ?%is_set_Is)]; eauto. }
    unfold bind at 1. unfold ret at 1.
    by rewrite (bind_ok _ _ _ _ _ (getattr_is _ _ _ _ Hr)).
Qed.

(** The open or the configuration fails, and the device, if it was opened,
    lets itself be closed. *)
Lemma start_fails env w :
  constructed (self w) -> Stopped w -> fails_before_thread env ->
  open_fault env <> None \/ close_fault env = None ->
  exists w',
    start true env w = (Ok tt, w') /\
    self w' = self w /\ threads w' = threads w /\
    match open_fault env with
    | Some _ => cameras w' = cameras w
    | None => exists dev, cameras w' = cameras w ++ [dev] /\
                          closed dev = true /\ close_calls dev = 1
    end.
Proof.
  destruct w as [[cam fb run lk res fr jq th lft] cams thr].
  unfold constructed, Stopped. cbn [self running camera resolution framerate
    jpeg_quality frame_bytes lock thread last_frame_time].
  intros (_ & _ & _ & _ & [res' ->]%is_set_Is & [fr' ->]%is_set_Is & _) [-> ->].
  destruct env as [[e1|] [e2|] [e3|] tf [e5|]]; intros Hf Hcl; cbn in Hcl;
    try (exfalso; destruct Hcl; congruence); run_start.
  all: try (by eexists).
  all: try (eexists; split; [reflexivity|]; split; [done|]; split; [done|];
            by eexists).
  unfold fails_before_thread in Hf. cbn in Hf. tauto.
Qed.

(** The configuration fails and [close()] raises too: the exception of
    [close()] leaves [start], and [self.camera] keeps the handle of the
    device, which is still open. *)
Lemma start_fails_close_raises env w e :
  constructed (self w) -> Stopped w ->
  open_fault env = None ->
  resolution_fault env <> None \/ framerate_fault env <> None ->
  close_fault env = Some e ->
  exists w' dev,
    start true env w = (Raise e, w') /\
    self w' = with_camera (Some (length (cameras w))) (self w) /\
    threads w' = threads w /\
    cameras w' = cameras w ++ [dev] /\
    closed dev = false /\ close_calls dev = 1.
Proof.
  destruct w as [[cam fb run lk res fr jq th lft] cams thr].
  unfold constructed, Stopped. cbn [self running camera resolution framerate
    jpeg_quality frame_bytes lock thread last_frame_time threads cameras].
  intros (_ & _ & _ & _ & [res' ->]%is_set_Is & [fr' ->]%is_set_Is & _) [-> ->].
  destruct env as [e1 [e2|] [e3|] tf e5]; cbn; intros -> Hf ->;
    try (exfalso; destruct Hf; congruence); run_start.
  all: eexists _, _; split; [reflexivity|]; done.
Qed.

Lemma start_thread_fails env w e :
  constructed (self w) -> Stopped w ->
  open_fault env = None -> resolution_fault env = None ->
  framerate_fault env = None -> thread_fault env = Some e ->
  close_fault env = None ->
  exists w' dev,
    start true env w = (Ok tt, w') /\
    self w' = with_thread (Some (length (threads w))) (self w) /\
    threads w' = threads w ++ [Created] /\
    cameras w' = cameras w ++ [dev] /\
    closed dev = true /\ close_calls dev = 1.
Proof.
  destruct w as [[cam fb run lk res fr jq th lft] cams thr].
  unfold constructed, Stopped. cbn [self running camera resolution framerate
    jpeg_quality frame_bytes lock thread last_frame_time threads cameras].
  intros (_ & _ & _ & _ & [res' ->]%is_set_Is & [fr' ->]%is_set_Is & _) [-> ->].
  destruct env as [e1 e2 e3 tf e5]. cbn. intros -> -> -> -> ->. run_start.
  eexists _, _. split; [reflexivity|]. done.
Qed.

Lemma start_thread_fails_close_raises env w e e' :
  constructed (self w) -> Stopped w ->
  open_fault env = None -> resolution_fault env = None ->
  framerate_fault env = None -> thread_fault env = Some e ->
  close_fault env = Some e' ->
  exists w' dev,
    start true env w = (Raise e', w') /\
    self w' = with_thread (Some (length (threads w)))
                (with_camera (Some (length (cameras w))) (self w)) /\
    threads w' = threads w ++ [Created] /\
    cameras w' = cameras w ++ [dev] /\
    closed dev = false /\ close_calls dev = 1.
Proof.
  destruct w as [[cam fb run lk res fr jq th lft] cams thr].
  unfold constructed, Stopped. cbn [self running camera resolution framerate
    jpeg_quality frame_bytes lock thread last_frame_time threads cameras].
  intros (_ & _ & _ & _ & [res' ->]%is_set_Is & [fr' ->]%is_set_Is & _) [-> ->].
  destruct env as [e1 e2 e3 tf e5]. cbn. intros -> -> -> -> ->. run_start.
  eexists _, _. split; [reflexivity|]. done.
Qed.

Lemma start_succeeds env w res fps :
  constructed (self w) -> Stopped w -> no_fault env ->
  resolution (self w) = Is res -> framerate (self w) = Is fps ->
  start true env w =
    (Ok tt,
     {| self := with_thread (Some (length (threads w)))
                  (with_running true
                     (with_camera (Some (length (cameras w))) (self w)));
        cameras := cameras w ++ [configured_camera res fps (close_fault env)];
        threads := threads w ++ [Spawned] |}).
Proof.
  destruct w as [[cam fb run lk rs fr jq th lft] cams thr].
  unfold constructed, Stopped. cbn [self running camera resolution framerate
    jpeg_quality frame_bytes lock thread last_frame_time threads cameras].
  intros (_ & _ & _ & _ & _ & _ & [jq' ->]%is_set_Is & _) [-> ->].
  destruct env as [e1 e2 e3 tf e5]. unfold no_fault. cbn. intros (-> & -> & -> & ->).
  intros -> ->. cbn. rewrite !alter_snoc.
  by rewrite list_insert_alter, alter_snoc.
Qed.

(** Whatever the driver does, [start] leaves the handler constructed and
    ends in one of the ways of [start_effect]. *)
Lemma start_outcomes env w :
  constructed (self w) ->
  exists r w',
    start true env w = (r, w') /\ constructed (self w') /\ start_effect env w w'.
Proof.
  intros Hcons.
  pose proof Hcons as (Hcam & _ & Hrun & _ & Hres & Hfps & _).
  destruct (is_set_Is _ Hcam) as [[d|] Hc].
  { exists (Ok tt), w. split; [|split; [done|by left]].
    apply start_noop; [done|]. right. eauto. }
  destruct (is_set_Is _ Hrun) as [[] Hr].
  { exists (Ok tt), w. split; [|split; [done|by left]].
    apply start_noop; [done|]. by left. }
  assert (Hs : Stopped w) by done.
  destruct (is_set_Is _ Hres) as [res Hres'].
  destruct (is_set_Is _ Hfps) as [fps Hfps'].
  destruct (open_fault env) as [e1|] eqn:H1;
    [|destruct (resolution_fault env) as [e2|] eqn:H2;
      [|destruct (framerate_fault env) as [e3|] eqn:H3;
        [|destruct (thread_fault env) as [e4|] eqn:H4]]].
  - destruct (start_fails env w Hcons Hs) as (w' & Hrun' & Hself & _);
      [unfold fails_before_thread; rewrite H1; auto | rewrite H1; auto |].
    exists (Ok tt), w'. split; [done|]. rewrite Hself. split; [done|]. right; left. rewrite Hself. exact Hr.
  - destruct (close_fault env) as [e5|] eqn:H5.
    + destruct (start_fails_close_raises env w e5 Hcons Hs H1) as
        (w' & dev & Hrun' & Hself & _); [rewrite H2; auto | done |].
      exists (Raise e5), w'. split; [done|]. rewrite Hself.
      split; [unfold constructed in *; cbn; tauto|]. right; left. rewrite Hself. exact Hr.
    + destruct (start_fails env w Hcons Hs) as (w' & Hrun' & Hself & _);
        [unfold fails_before_thread; rewrite H2; auto | auto |].
      exists (Ok tt), w'. split; [done|]. rewrite Hself. split; [done|]. right; left. rewrite Hself. exact Hr.
  - destruct (close_fault env) as [e5|] eqn:H5.
    + destruct (start_fails_close_raises env w e5 Hcons Hs H1) as
        (w' & dev & Hrun' & Hself & _); [rewrite H3; auto | done |].
      exists (Raise e5), w'. split; [done|]. rewrite Hself.
      split; [unfold constructed in *; cbn; tauto|]. right; left. rewrite Hself. exact Hr.
    + destruct (start_fails env w Hcons Hs) as (w' & Hrun' & Hself & _);
        [unfold fails_before_thread; rewrite H3; auto | auto |].
      exists (Ok tt), w'. split; [done|]. rewrite Hself. split; [done|]. right; left. rewrite Hself. exact Hr.
  - destruct (close_fault env) as [e5|] eqn:H5.
    + destruct (start_thread_fails_close_raises env w e4 e5 Hcons Hs H1 H2 H3 H4 H5)
        as (w' & dev & Hrun' & Hself & _).
      exists (Raise e5), w'. split; [done|]. rewrite Hself.
      split; [unfold constructed in *; cbn; tauto|]. right; left. rewrite Hself. exact Hr.
    + destruct (start_thread_fails env w e4 Hcons Hs H1 H2 H3 H4 H5)
        as (w' & dev & Hrun' & Hself & _).
      exists (Ok tt), w'. split; [done|]. rewrite Hself.
      split; [unfold constructed in *; cbn; tauto|]. right; left. rewrite Hself. exact Hr.
  - exists (Ok tt). eexists. split.
    { by apply (start_succeeds env w res fps). }
    cbn [self]. split; [unfold constructed in *; cbn; tauto|].
    right; right. by exists res, fps.
Qed.

Lemma sys_step_constructed w w' :
  constructed (self w) -> sys_step true w w' -> constructed (self w').
Proof.
  intros HI Hstep. destruct Hstep as [env w|during w|tid a w].
  - by destruct (start_outcomes env w HI) as (r & w1 & -> & HI1 & _).
  - by destruct (stop_spec during w HI) as (w1 & -> & HI1 & _).
  - by apply capture_loop_constructed.
Qed.

Lemma new_world_constructed res fps quality :
  constructed (self (new_world true res fps quality)).
Proof. by repeat split. Qed.

Lemma reachable_constructed w : reachable true w -> constructed (self w).
Proof.
  intros (res & fps & quality & Hrtc).
  revert w Hrtc. apply rtc_ind_r; [apply new_world_constructed|].
  intros w1 w2 _ Hstep IH. by apply (sys_step_constructed w1).
Qed.

(** ** The sample states are reachable *)

Lemma w_running_reachable : reachable true w_running.
Proof.
  exists (640, 480), 20, 85.
  exact (rtc_once _ _ (sys_start true env_ok w_new)).
Qed.

Lemma w_live_reachable : reachable true w_live.
Proof.
  exists (640, 480), 20, 85.
  eapply rtc_l; [exact (sys_start true env_ok w_new)|].
  eapply rtc_l; [exact (sys_thread true 0 Enter _)|].
  exact (rtc_once _ _ (sys_thread true 0 (Deliver (Frame sample_jpeg 10%float)) _)).
Qed.

(** ** The claims about the lifecycle *)

(** C2.  The claim fails on the code when [join] times out.  [stop] on
    the running handler [w_live], with the capture thread still waiting
    for the device, reaches its guarded close in the state [w_wedged].  With
    nothing in between, the end of [stop] closes the device by one call.
    When the thread leaves its loop while the end of [stop] is under way,
    both can pass the test of [self.camera.closed] before either calls
    [close()]: both blocks end normally and [close()] has been called
    twice.  And when the thread runs its block between two reads of
    [self.camera] in [stop], the read of [self.camera.closed] finds [None]:
    [AttributeError] leaves [stop] before [frame_bytes] is assigned, so the
    published frame stays in the slot. *)
Theorem C2_stop_races_thread_exit :
  stop_head true [] w_live = (Ok tt, w_wedged) /\
  threads w_wedged !! 0 = Some Capturing /\
  fst (stop_tail w_wedged) = Ok tt /\
  map close_calls (cameras (snd (stop_tail w_wedged))) = [1] /\
  Teardown.stopper (Teardown.run both_test_then_close (Teardown.init w_wedged))
    = Teardown.Ended /\
  Teardown.capture (Teardown.run both_test_then_close (Teardown.init w_wedged))
    = Teardown.Ended /\
  map close_calls
    (cameras (Teardown.store
                (Teardown.run both_test_then_close (Teardown.init w_wedged))))
    = [2] /\
  Teardown.stopper
    (Teardown.run thread_clears_between_tests (Teardown.init w_wedged))
    = Teardown.Escaped (AttributeError "closed") /\
  Teardown.capture
    (Teardown.run thread_clears_between_tests (Teardown.init w_wedged))
    = Teardown.Ended /\
  frame_bytes
    (self (Teardown.store
             (Teardown.run thread_clears_between_tests (Teardown.init w_wedged))))
    = Is (Some sample_jpeg).
Proof. by vm_compute. Qed.

(** [join] times out with thread 0 still waiting for the device and the
    thread wakes only after [stop] has returned, on a frame or on the
    exception of the closed device: [stop] has closed the device itself,
    the thread finds [self.camera] [None] and closes nothing. *)
Example stop_times_out_then_thread_wakes :
  threads (snd (stop true [] w_live)) !! 0 = Some Capturing /\
  cameras (snd (stop true [] w_live)) =
    [{| closed := true; close_calls := 1;
        cam_resolution := Some (640, 480); cam_framerate := Some 20;
        close_raises := None |}] /\
  (forall ev,
     ev = Frame other_jpeg 14%float \/ ev = Fault PiCameraNotRecording ->
     run_threads true [(0, Deliver ev)] (snd (stop true [] w_live)) =
       {| self := self (snd (stop true [] w_live));
          cameras := cameras (snd (stop true [] w_live));
          threads := [Finished] |}).
Proof.
  split; [by vm_compute|]. split; [by vm_compute|].
  intros ev [-> | ->]; by vm_compute.
Qed.

(** C7.  The claim fails on the code when [close()] raises in the [except]
    clause of [start].  The frame rate is refused and [close()] of the
    device raises: the exception of [close()] leaves [start], [self.camera] still holds
    the device, which is open, and a later [start] returns at its first
    guard without opening anything. *)
Theorem C7_close_failure_escapes_start :
  Stopped w_new /\
  fst (start true env_bad_framerate_bad_close w_new) = Raise PiCameraError /\
  running (self (snd (start true env_bad_framerate_bad_close w_new))) = Is false /\
  camera (self (snd (start true env_bad_framerate_bad_close w_new))) = Is (Some 0) /\
  cameras (snd (start true env_bad_framerate_bad_close w_new)) =
    [{| closed := false; close_calls := 1;
        cam_resolution := Some (640, 480); cam_framerate := None;
        close_raises := Some PiCameraError |}] /\
  start true env_ok (snd (start true env_bad_framerate_bad_close w_new)) =
    (Ok tt, snd (start true env_bad_framerate_bad_close w_new)).
Proof. by vm_compute. Qed.

(** When the device cannot be opened nothing is built at all. *)
Example start_without_device :
  start true env_no_device w_new = (Ok tt, w_new).
Proof. by vm_compute. Qed.

(** C8. A second [stop] right after a completed [stop] returns without
    raising and leaves the handler and the devices exactly as the first
    call left them: [running] false, [self.camera] [None], [frame_bytes]
    [None]. *)
Theorem C8_stop_twice (w : world) (during1 during2 : schedule) :
  reachable true w ->
  exists w1 w2,
    stop true during1 w = (Ok tt, w1) /\
    stop true during2 w1 = (Ok tt, w2) /\
    self w2 = self w1 /\ cameras w2 = cameras w1 /\
    running (self w2) = Is false /\ camera (self w2) = Is None /\
    frame_bytes (self w2) = Is None.
Proof.
  intros Hreach.
  destruct (stop_spec during1 w (reachable_constructed w Hreach))
    as (w1 & Hrun1 & HI1 & Hr & Hc & Hfb & _).
  destruct (stop_quiescent during2 w1 HI1 Hr Hc Hfb) as [thr Hrun2].
  eexists w1, _. split; [done|]. split; [exact Hrun2|]. done.
Qed.

Lemma C8_witness :
  exists w1 w2,
    stop true [] w_live = (Ok tt, w1) /\
    stop true [(0, Deliver (Frame sample_jpeg 11%float))] w1 = (Ok tt, w2) /\
    self w2 = self w1 /\ cameras w2 = cameras w1 /\
    running (self w2) = Is false /\ camera (self w2) = Is None /\
    frame_bytes (self w2) = Is None.
Proof.
  exact (C8_stop_twice w_live [] [(0, Deliver (Frame sample_jpeg 11%float))]
           w_live_reachable).
Defined.

(** C9. [start] on a handler whose [running] flag is up returns at once:
    the whole state is unchanged, so no device is opened, no thread is
    built and no attribute is assigned. *)
Theorem C9_start_while_running (avail : bool) (env : start_env) (w : world) :
  running (self w) = Is true -> is_set (camera (self w)) ->
  start avail env w = (Ok tt, w).
Proof.
  intros Hr Hc. apply start_noop; [done|]. by left.
Qed.

Lemma C9_witness : start true env_ok w_live = (Ok tt, w_live).
Proof.
  apply (C9_start_while_running true env_ok w_live); [reflexivity | exact I].
Defined.

(** C10. Without the camera capability the constructor assigns [camera] and
    [running] and nothing else, and [start], [stop] and
    [get_frame_jpeg_bytes] each return without raising, the last one with
    [None], and leave the state as it was. *)
Theorem C10_capability_absent (res : nat * nat) (fps quality : nat)
    (cams : list PiCamera) (thr : list thread_state)
    (env : start_env) (during : schedule) (now : time) :
  let h := __init__ false res fps quality in
  let w := {| self := h; cameras := cams; threads := thr |} in
  (camera h = Is None /\ running h = Is false /\
   frame_bytes h = Unset /\ lock h = Unset /\ resolution h = Unset /\
   framerate h = Unset /\ jpeg_quality h = Unset /\ thread h = Unset /\
   last_frame_time h = Unset) /\
  start false env w = (Ok tt, w) /\
  stop false during w = (Ok tt, w) /\
  get_frame_jpeg_bytes false now w = (Ok None, w).
Proof. cbv zeta. by repeat split. Qed.

(** ** Device faults in the capture loop *)

(** [get_frame_jpeg_bytes] on a constructed handler returns, with a frame or
    with [None], and changes nothing. *)
Lemma get_frame_jpeg_bytes_returns avail now w :
  constructed (self w) ->
  exists v, get_frame_jpeg_bytes avail now w = (Ok v, w).
Proof.
  intros (_ & [fb Hfb]%is_set_Is & _ & [l Hl]%is_set_Is & _ & _ & _ & _
          & [t Ht]%is_set_Is).
  unfold get_frame_jpeg_bytes. destruct avail; cbn [negb]; [|by eexists].
  rewrite (bind_ok _ _ _ _ _ (getattr_is _ _ _ _ Hl)).
  rewrite (bind_ok _ _ _ _ _ (getattr_is _ _ _ _ Hfb)).
  destruct (truthy_bytes fb); [|by eexists].
  rewrite (bind_ok _ _ _ _ _ (getattr_is _ _ _ _ Ht)).
  destruct (_ <? _)%float; [|by eexists].
  rewrite (getattr_is _ _ _ _ Hfb). by eexists.
Qed.

(** With the flag down a session goes to its offline branch. *)
Lemma generate_video_frames_offline avail placeholder now w :
  running (self w) = Is false ->
  generate_video_frames avail true true placeholder now w =
    (Ok (Yield (multipart_chunk placeholder) 1%float), w).
Proof.
  intros Hr. unfold generate_video_frames, try_except. cbn [negb].
  rewrite (bind_ok _ _ w true w); [done|].
  by rewrite (bind_ok _ _ _ _ _ (getattr_is _ _ _ _ Hr)).
Qed.

(** C3, as the code has it.  When a fault of the device ends the capture
    loop while [running] is true, the thread ends without an exception
    leaving it and [running] is false; [frame_bytes] and [last_frame_time]
    keep the last published frame (only [stop] clears the slot); a session
    then takes its offline branch, and a read of the slot returns without
    raising. *)
Theorem C3_fault_stops_producer (w : world) (tid : nat) (ev : event) :
  constructed (self w) ->
  threads w !! tid = Some Capturing -> running (self w) = Is true ->
  ends_capture ev ->
  exists w',
    _capture_loop true tid (Deliver ev) w = (Ok tt, w') /\
    threads w' !! tid = Some Finished /\
    running (self w') = Is false /\
    frame_bytes (self w') = frame_bytes (self w) /\
    last_frame_time (self w') = last_frame_time (self w) /\
    (forall placeholder now,
       generate_video_frames true true true placeholder now w' =
         (Ok (Yield (multipart_chunk placeholder) 1%float), w')) /\
    (forall now, exists v, get_frame_jpeg_bytes true now w' = (Ok v, w')).
Proof.
  intros Hcons Hts Hr Hev.
  unfold _capture_loop. rewrite Hts.
  assert (exists r, capture_iteration ev w = (r, w) /\ r <> Ok Continue)
    as (r & Hpiece & Hne).
  { destruct ev as [? ?|e|]; [done| |]; eexists; by split. }
  rewrite (in_try_exit _ _ _ _ _ Hpiece Hne).
  rewrite capture_exit_finally by apply Hcons.
  destruct (capture_finally_spec w) as (w' & -> & Hself & Hthr & Hlen);
    [apply Hcons|].
  cbn [fst snd set_thread_state].
  eexists. split; [reflexivity|]. cbn [self cameras threads].
  split. { rewrite Hthr. apply list_lookup_insert_eq. exact (lookup_lt_Some _ _ _ Hts). }
  rewrite Hself. split; [done|].
  split; [done|]. split; [done|]. split.
  - intros placeholder now. by apply generate_video_frames_offline.
  - intros now. apply get_frame_jpeg_bytes_returns.
    unfold constructed in *. cbn. tauto.
Qed.

Lemma C3_witness :
  exists w',
    _capture_loop true 0 (Deliver (Fault PiCameraError)) w_live = (Ok tt, w') /\
    threads w' !! 0 = Some Finished /\
    running (self w') = Is false /\
    frame_bytes (self w') = frame_bytes (self w_live) /\
    last_frame_time (self w') = last_frame_time (self w_live) /\
    (forall placeholder now,
       generate_video_frames true true true placeholder now w' =
         (Ok (Yield (multipart_chunk placeholder) 1%float), w')) /\
    (forall now, exists v, get_frame_jpeg_bytes true now w' = (Ok v, w')).
Proof.
  apply (C3_fault_stops_producer w_live 0 (Fault PiCameraError)).
  - by repeat split.
  - reflexivity.
  - reflexivity.
  - exact I.
Defined.

(** C3 as stated fails: after a frame was published, a fault ends the loop
    with [running] false but with that frame still in [frame_bytes], and a
    read half a second after the publish returns it. *)
Lemma C3_counterexample :
  running (self w_live) = Is true /\
  threads w_live !! 0 = Some Capturing /\
  fst (_capture_loop true 0 (Deliver (Fault PiCameraError)) w_live) = Ok tt /\
  running (self (snd (_capture_loop true 0 (Deliver (Fault PiCameraError)) w_live)))
    = Is false /\
  frame_bytes (self (snd (_capture_loop true 0 (Deliver (Fault PiCameraError)) w_live)))
    = Is (Some sample_jpeg) /\
  fst (get_frame_jpeg_bytes true 10.5%float
         (snd (_capture_loop true 0 (Deliver (Fault PiCameraError)) w_live)))
    = Ok (Some sample_jpeg).
Proof. by vm_compute. Qed.

(** ** Freshness of the frame *)

Lemma SFcompare_antisym (x y : SpecFloat.spec_float) (c : comparison) :
  SpecFloat.SFcompare x y = Some c ->
  SpecFloat.SFcompare y x = Some (CompOpp c).
Proof.
  destruct x as [sx|sx| |sx mx ex], y as [sy|sy| |sy my ey]; cbn;
    try destruct sx; try destruct sy; intros [= <-]; try reflexivity.
  all: rewrite (Z.compare_antisym ex ey); destruct (ex ?= ey)%Z; cbn;
    try reflexivity.
  all: by rewrite (Pos.compare_cont_antisym mx my Eq).
Qed.

(** On binary64, [1.0 <= x] excludes [x < 1.0]. *)
Lemma float_leb_not_ltb (x y : float) :
  (x <=? y)%float = true -> (y <? x)%float = false.
Proof.
  rewrite leb_spec, ltb_spec. unfold SpecFloat.SFleb, SpecFloat.SFltb.
  destruct (SpecFloat.SFcompare (Prim2SF x) (Prim2SF y)) as [c|] eqn:Hc; [|done].
  rewrite (SFcompare_antisym _ _ _ Hc). by destruct c.
Qed.

(** C5. A stored frame whose age, as [get_frame_jpeg_bytes] computes it, is
    one second or more is not returned by the read, and a session pass at
    that time yields no chunk made of it: on a running handler the pass
    yields nothing when the capability is there, and whatever a pass yields
    is the placeholder chunk of the offline branch. *)
Theorem C5_stale_frame_not_emitted (avail : bool) (w : world)
    (jpeg : bytes) (t now : time) :
  is_set (lock (self w)) ->
  frame_bytes (self w) = Is (Some jpeg) -> last_frame_time (self w) = Is t ->
  (1 <=? now - t)%float = true ->
  get_frame_jpeg_bytes avail now w = (Ok None, w) /\
  (running (self w) = Is true ->
   forall placeholder,
     generate_video_frames avail true true placeholder now w =
       (Ok (if avail then Idle (min_stream_interval / 2)%float
            else Yield (multipart_chunk placeholder) 1%float), w)) /\
  (forall flask_running camera_handler placeholder chunk sleep w',
     generate_video_frames avail flask_running camera_handler placeholder now w
       = (Ok (Yield chunk sleep), w') ->
     chunk = multipart_chunk placeholder).
Proof.
  intros [l Hl]%is_set_Is Hfb Ht Hage.
  apply float_leb_not_ltb in Hage.
  assert (Hread : get_frame_jpeg_bytes avail now w = (Ok None, w)).
  { unfold get_frame_jpeg_bytes. destruct avail; cbn [negb]; [|done].
    rewrite (bind_ok _ _ _ _ _ (getattr_is _ _ _ _ Hl)).
    rewrite (bind_ok _ _ _ _ _ (getattr_is _ _ _ _ Hfb)).
    destruct (truthy_bytes (Some jpeg)); [|done].
    rewrite (bind_ok _ _ _ _ _ (getattr_is _ _ _ _ Ht)).
    by rewrite Hage. }
  split; [exact Hread|]. split.
  - intros Hr placeholder. unfold generate_video_frames, try_except. cbn [negb].
    rewrite (bind_ok _ _ w (negb avail) w)
      by (by rewrite (bind_ok _ _ _ _ _ (getattr_is _ _ _ _ Hr))).
    destruct avail; cbn [negb]; [|done].
    by rewrite (bind_ok _ _ _ _ _ Hread).
  - intros flask_running camera_handler placeholder chunk sleep w'.
    unfold generate_video_frames, try_except.
    destruct flask_running; cbn [negb]; [|done].
    match goal with |- context [bind ?m _ w] =>
      assert (exists r, m w = (r, w)) as [r Hoff]
    end.
    { destruct camera_handler; cbn [negb]; [|by eexists].
      unfold bind, getattr. destruct (running (self w)); by eexists. }
    unfold bind at 1. rewrite Hoff.
    destruct r as [[]|e]; [by intros [= <- _ _]| |done].
    by rewrite (bind_ok _ _ _ _ _ Hread).
Qed.

Lemma C5_witness :
  get_frame_jpeg_bytes true 11.5%float w_live = (Ok None, w_live) /\
  (running (self w_live) = Is true ->
   forall placeholder,
     generate_video_frames true true true placeholder 11.5%float w_live =
       (Ok (Idle (min_stream_interval / 2)%float), w_live)) /\
  (forall flask_running camera_handler placeholder chunk sleep w',
     generate_video_frames true flask_running camera_handler placeholder
       11.5%float w_live = (Ok (Yield chunk sleep), w') ->
     chunk = multipart_chunk placeholder).
Proof.
  apply (C5_stale_frame_not_emitted true w_live sample_jpeg 10%float 11.5%float).
  - exact I.
  - reflexivity.
  - reflexivity.
  - reflexivity.
Defined.

(** At the threshold itself the frame is stale already; just below it, it is
    returned. *)
Example stale_at_one_second :
  fst (get_frame_jpeg_bytes true 11%float w_live) = Ok None /\
  fst (get_frame_jpeg_bytes true 10.75%float w_live) = Ok (Some sample_jpeg).
Proof. by vm_compute. Qed.

(** ** The frame slot under interleaving *)

Lemma reader_at_set_reader r pc s r' :
  FrameSlot.reader_at (FrameSlot.set_reader r pc s) r' =
    if decide (r = r') then pc else FrameSlot.reader_at s r'.
Proof.
  unfold FrameSlot.reader_at, FrameSlot.set_reader. cbn.
  rewrite lookup_insert. by destruct (decide (r = r')).
Qed.

Lemma frame_slot_init_invariant : FrameSlot.invariant FrameSlot.init.
Proof.
  assert (Hout : forall r, FrameSlot.reader_at FrameSlot.init r = FrameSlot.R_outside).
  { intros r. unfold FrameSlot.reader_at, FrameSlot.init.
    cbn [FrameSlot.readers]. by rewrite lookup_empty. }
  split.
  - done.
  - intros r. by rewrite Hout.
  - cbn. done.
  - intros r t. by rewrite Hout.
  - intros r b t. by rewrite Hout.
  - intros b t Hin. by apply elem_of_nil in Hin.
Qed.

(** A thread inside its block excludes every other one. *)
Lemma slot_reader_outside s r :
  FrameSlot.invariant s ->
  FrameSlot.lock (FrameSlot.cell s) <> FrameSlot.Reader r ->
  FrameSlot.reader_at s r = FrameSlot.R_outside.
Proof.
  intros HI Hl. destruct (FrameSlot.reader_at s r) eqn:E; [done|..].
  all: exfalso; apply Hl, (FrameSlot.inv_reader s HI r); by rewrite E.
Qed.

Lemma slot_writer_outside s :
  FrameSlot.invariant s ->
  FrameSlot.lock (FrameSlot.cell s) <> FrameSlot.Writer ->
  FrameSlot.writer s = FrameSlot.W_outside.
Proof.
  intros HI Hl. destruct (FrameSlot.writer s) eqn:E; [done|..].
  all: exfalso; apply Hl, (FrameSlot.inv_writer s HI); by rewrite E.
Qed.

Lemma slot_reader_lock s r :
  FrameSlot.invariant s ->
  FrameSlot.reader_at s r <> FrameSlot.R_outside ->
  FrameSlot.lock (FrameSlot.cell s) = FrameSlot.Reader r.
Proof. intros HI. apply (FrameSlot.inv_reader s HI r). Qed.

Lemma slot_writer_lock s :
  FrameSlot.invariant s ->
  FrameSlot.writer s <> FrameSlot.W_outside ->
  FrameSlot.lock (FrameSlot.cell s) = FrameSlot.Writer.
Proof. intros HI. apply (FrameSlot.inv_writer s HI). Qed.

(** The writer's statements. *)
Lemma slot_invariant_writer s s' :
  FrameSlot.invariant s ->
  (exists jpeg, FrameSlot.writer s = FrameSlot.W_outside /\
                FrameSlot.lock (FrameSlot.cell s) = FrameSlot.Free /\
                s' = FrameSlot.do_w_enter jpeg s) \/
  (exists jpeg, FrameSlot.writer s = FrameSlot.W_entered jpeg /\
                s' = FrameSlot.do_w_store_bytes jpeg s) \/
  (exists jpeg t, FrameSlot.writer s = FrameSlot.W_stored_bytes jpeg /\
                  s' = FrameSlot.do_w_store_time jpeg t s) \/
  (FrameSlot.writer s = FrameSlot.W_stored_both /\ s' = FrameSlot.do_w_leave s) ->
  FrameSlot.invariant s'.
Proof.
  intros HI Hcase.
  assert (Hidle : FrameSlot.lock (FrameSlot.cell s) = FrameSlot.Free \/
                  FrameSlot.lock (FrameSlot.cell s) = FrameSlot.Writer ->
                  forall r, FrameSlot.reader_at s r = FrameSlot.R_outside).
  { intros Hl r. apply slot_reader_outside; [done|]. destruct Hl; congruence. }
  pose proof (FrameSlot.inv_slot s HI) as Hslot.
  destruct Hcase as [(jpeg & Hpc & Hfree & ->)|[(jpeg & Hpc & ->)
                    |[(jpeg & t & Hpc & ->)|(Hpc & ->)]]].
  - (* with self.lock: *)
    specialize (Hidle (or_introl Hfree)). rewrite Hpc in Hslot. split.
    + done.
    + intros r. change (FrameSlot.reader_at (FrameSlot.do_w_enter jpeg s) r)
        with (FrameSlot.reader_at s r). rewrite Hidle. by split.
    + exact Hslot.
    + intros r t. apply (FrameSlot.inv_fresh s HI r t).
    + apply (FrameSlot.inv_leaving s HI).
    + apply (FrameSlot.inv_returned s HI).
  - (* self.frame_bytes = ... *)
    assert (Hl : FrameSlot.lock (FrameSlot.cell s) = FrameSlot.Writer)
      by (apply slot_writer_lock; [done|by rewrite Hpc]).
    specialize (Hidle (or_intror Hl)). split.
    + cbn. by rewrite Hl.
    + intros r. change (FrameSlot.reader_at (FrameSlot.do_w_store_bytes jpeg s) r)
        with (FrameSlot.reader_at s r). rewrite Hidle. cbn. rewrite Hl. by split.
    + cbn. by left.
    + intros r t. apply (FrameSlot.inv_fresh s HI r t).
    + apply (FrameSlot.inv_leaving s HI).
    + apply (FrameSlot.inv_returned s HI).
  - (* self.last_frame_time = ... *)
    assert (Hl : FrameSlot.lock (FrameSlot.cell s) = FrameSlot.Writer)
      by (apply slot_writer_lock; [done|by rewrite Hpc]).
    specialize (Hidle (or_intror Hl)). rewrite Hpc in Hslot. split.
    + cbn. by rewrite Hl.
    + intros r. change (FrameSlot.reader_at (FrameSlot.do_w_store_time jpeg t s) r)
        with (FrameSlot.reader_at s r). rewrite Hidle. cbn. rewrite Hl. by split.
    + cbn. intros b Hb. destruct Hslot as [Hs|Hs]; rewrite Hs in Hb; [|done].
      injection Hb as <-. apply elem_of_cons. by left.
    + intros r t'. change (FrameSlot.reader_at (FrameSlot.do_w_store_time jpeg t s) r)
        with (FrameSlot.reader_at s r). by rewrite Hidle.
    + intros r b t' Hlv. apply elem_of_cons. right.
      by apply (FrameSlot.inv_leaving s HI r).
    + intros b t' Hin. apply elem_of_cons. right.
      by apply (FrameSlot.inv_returned s HI).
  - (* end of the block *)
    assert (Hl : FrameSlot.lock (FrameSlot.cell s) = FrameSlot.Writer)
      by (apply slot_writer_lock; [done|by rewrite Hpc]).
    specialize (Hidle (or_intror Hl)). rewrite Hpc in Hslot. split.
    + done.
    + intros r. change (FrameSlot.reader_at (FrameSlot.do_w_leave s) r)
        with (FrameSlot.reader_at s r). rewrite Hidle. by split.
    + exact Hslot.
    + intros r t. apply (FrameSlot.inv_fresh s HI r t).
    + apply (FrameSlot.inv_leaving s HI).
    + apply (FrameSlot.inv_returned s HI).
Qed.

(** A statement of reader [r] that keeps it inside its block and touches only
    its own position. *)
Lemma slot_invariant_reader_inside s r pc :
  FrameSlot.invariant s ->
  FrameSlot.reader_at s r <> FrameSlot.R_outside ->
  pc <> FrameSlot.R_outside ->
  (forall t, pc = FrameSlot.R_fresh t ->
             t = FrameSlot.last_frame_time (FrameSlot.cell s)) ->
  (forall b t, pc = FrameSlot.R_leaving (Some (b, t)) ->
               (b, t) ∈ FrameSlot.published s) ->
  FrameSlot.invariant (FrameSlot.set_reader r pc s).
Proof.
  intros HI Hin Hpc Hf Hlv. split.
  - apply (FrameSlot.inv_writer s HI).
  - intros r'. rewrite reader_at_set_reader.
    destruct (decide (r = r')) as [<-|Hne]; [|apply (FrameSlot.inv_reader s HI)].
    change (FrameSlot.lock (FrameSlot.cell (FrameSlot.set_reader r pc s)))
      with (FrameSlot.lock (FrameSlot.cell s)).
    rewrite (slot_reader_lock s r HI Hin). by split.
  - apply (FrameSlot.inv_slot s HI).
  - intros r' t. rewrite reader_at_set_reader.
    destruct (decide (r = r')); [apply Hf|apply (FrameSlot.inv_fresh s HI)].
  - intros r' b t. rewrite reader_at_set_reader.
    destruct (decide (r = r')); [apply Hlv|apply (FrameSlot.inv_leaving s HI)].
  - apply (FrameSlot.inv_returned s HI).
Qed.

Lemma frame_slot_step_invariant s s' :
  FrameSlot.invariant s -> FrameSlot.step s s' -> FrameSlot.invariant s'.
Proof.
  intros HI Hstep.
  destruct Hstep as [s jpeg Hpc Hfree|s jpeg Hpc|s jpeg t Hpc|s Hpc
                    |s r Hpc Hfree|s r Hpc|s r now Hpc|s r t Hpc|s r res Hpc|s].
  - apply (slot_invariant_writer s); [done|]. left. eauto.
  - apply (slot_invariant_writer s); [done|]. right; left. eauto.
  - apply (slot_invariant_writer s); [done|]. right; right; left. eauto.
  - apply (slot_invariant_writer s); [done|]. right; right; right. eauto.
  - (* reader r enters *)
    assert (Hwo : FrameSlot.writer s = FrameSlot.W_outside)
      by (apply slot_writer_outside; [done|congruence]).
    assert (Hout : forall r', FrameSlot.reader_at s r' = FrameSlot.R_outside)
      by (intros r'; apply slot_reader_outside; [done|congruence]).
    pose proof (FrameSlot.inv_slot s HI) as Hslot. rewrite Hwo in Hslot.
    unfold FrameSlot.do_r_enter. split.
    + cbn. rewrite Hwo. by split.
    + intros r'. rewrite reader_at_set_reader. cbn.
      destruct (decide (r = r')) as [<-|Hne]; [by split|].
      change (FrameSlot.reader_at _ r') with (FrameSlot.reader_at s r').
      rewrite Hout. split; [congruence|done].
    + cbn. by rewrite Hwo.
    + intros r' t. rewrite reader_at_set_reader.
      destruct (decide (r = r')); [done|].
      change (FrameSlot.reader_at _ r') with (FrameSlot.reader_at s r').
      by rewrite Hout.
    + intros r' b t. rewrite reader_at_set_reader.
      destruct (decide (r = r')); [done|].
      change (FrameSlot.reader_at _ r') with (FrameSlot.reader_at s r').
      by rewrite Hout.
    + apply (FrameSlot.inv_returned s HI).
  - (* if self.frame_bytes *)
    apply slot_invariant_reader_inside; [done|by rewrite Hpc|..];
      by destruct (truthy_bytes _).
  - (* ... and fresh *)
    apply slot_invariant_reader_inside; [done|by rewrite Hpc|..];
      destruct (_ <? _)%float; try done. by intros t [= <-].
  - (* return self.frame_bytes *)
    assert (Hwo : FrameSlot.writer s = FrameSlot.W_outside).
    { apply slot_writer_outside; [done|].
      rewrite (slot_reader_lock s r HI) by by rewrite Hpc. done. }
    pose proof (FrameSlot.inv_slot s HI) as Hslot. rewrite Hwo in Hslot.
    apply slot_invariant_reader_inside; [done|by rewrite Hpc|done|done|].
    intros b t'. destruct (FrameSlot.frame_bytes (FrameSlot.cell s)) as [b'|] eqn:Hb;
      [|done].
    intros [= <- <-]. rewrite (FrameSlot.inv_fresh s HI r t Hpc). by apply Hslot.
  - (* reader r leaves *)
    assert (Hl : FrameSlot.lock (FrameSlot.cell s) = FrameSlot.Reader r)
      by (apply slot_reader_lock; [done|by rewrite Hpc]).
    assert (Hwo : FrameSlot.writer s = FrameSlot.W_outside)
      by (apply slot_writer_outside; [done|congruence]).
    assert (Hout : forall r', r <> r' -> FrameSlot.reader_at s r' = FrameSlot.R_outside)
      by (intros r' Hne; apply slot_reader_outside; [done|congruence]).
    pose proof (FrameSlot.inv_slot s HI) as Hslot. rewrite Hwo in Hslot.
    unfold FrameSlot.do_r_leave. split.
    + cbn. rewrite Hwo. by split.
    + intros r'. rewrite reader_at_set_reader. cbn.
      destruct (decide (r = r')) as [<-|Hne]; [by split|].
      change (FrameSlot.reader_at _ r') with (FrameSlot.reader_at s r').
      rewrite (Hout r' Hne). by split.
    + cbn. by rewrite Hwo.
    + intros r' t. rewrite reader_at_set_reader.
      destruct (decide (r = r')) as [|Hne]; [done|].
      change (FrameSlot.reader_at _ r') with (FrameSlot.reader_at s r').
      by rewrite (Hout r' Hne).
    + intros r' b t. rewrite reader_at_set_reader.
      destruct (decide (r = r')) as [|Hne]; [done|].
      change (FrameSlot.reader_at _ r') with (FrameSlot.reader_at s r').
      by rewrite (Hout r' Hne).
    + cbn. intros b t. rewrite elem_of_cons. intros [<-|Hin].
      * by apply (FrameSlot.inv_leaving s HI r).
      * by apply (FrameSlot.inv_returned s HI).
  - (* self.frame_bytes = None *)
    pose proof (FrameSlot.inv_slot s HI) as Hslot. split.
    + apply (FrameSlot.inv_writer s HI).
    + apply (FrameSlot.inv_reader s HI).
    + cbn. destruct (FrameSlot.writer s); auto; done.
    + apply (FrameSlot.inv_fresh s HI).
    + apply (FrameSlot.inv_leaving s HI).
    + apply (FrameSlot.inv_returned s HI).
Qed.

Lemma frame_slot_reachable_invariant s :
  FrameSlot.reachable s -> FrameSlot.invariant s.
Proof.
  revert s. apply rtc_ind_r; [apply frame_slot_init_invariant|].
  intros s1 s2 _ Hstep IH. by apply (frame_slot_step_invariant s1).
Qed.

Lemma slot_after_read_reachable : FrameSlot.reachable slot_after_read.
Proof.
  unfold FrameSlot.reachable, slot_after_read.
  eapply rtc_l; [by apply (FrameSlot.w_enter _ sample_jpeg)|].
  eapply rtc_l; [by apply (FrameSlot.w_store_bytes _ sample_jpeg)|].
  eapply rtc_l; [by apply (FrameSlot.w_store_time _ sample_jpeg 10%float)|].
  eapply rtc_l; [by apply FrameSlot.w_leave|].
  eapply rtc_l; [by apply (FrameSlot.r_enter _ 0)|].
  eapply rtc_l; [by apply (FrameSlot.r_test_bytes _ 0)|].
  eapply rtc_l; [by apply (FrameSlot.r_test_time _ 0 10.5%float)|].
  eapply rtc_l; [by apply (FrameSlot.r_load_result _ 0 10%float)|].
  apply rtc_once. by apply (FrameSlot.r_leave _ 0).
Qed.

(** C1. In every state that publishes and reads reach by interleaving their
    statements, every payload returned by a read, with the timestamp that
    read tested, is the payload and the timestamp of one single publish;
    the same holds for a read that is about to return. *)
Theorem C1_read_is_one_publish (s : FrameSlot.state) :
  FrameSlot.reachable s ->
  (forall b t, Some (b, t) ∈ FrameSlot.returned s -> (b, t) ∈ FrameSlot.published s) /\
  (forall r b t, FrameSlot.reader_at s r = FrameSlot.R_leaving (Some (b, t)) ->
                 (b, t) ∈ FrameSlot.published s).
Proof.
  intros HI%frame_slot_reachable_invariant. split.
  - apply (FrameSlot.inv_returned s HI).
  - apply (FrameSlot.inv_leaving s HI).
Qed.

Lemma C1_witness :
  FrameSlot.reachable slot_after_read /\
  Some (sample_jpeg, 10%float) ∈ FrameSlot.returned slot_after_read /\
  (sample_jpeg, 10%float) ∈ FrameSlot.published slot_after_read.
Proof.
  assert (Hin : Some (sample_jpeg, 10%float) ∈ FrameSlot.returned slot_after_read)
    by (vm_compute; apply list_elem_of_here).
  split; [exact slot_after_read_reachable|]. split; [exact Hin|].
  exact (proj1 (C1_read_is_one_publish slot_after_read slot_after_read_reachable)
           sample_jpeg 10%float Hin).
Defined.

(** Without the lock the property of C1 fails: the read returns the new
    payload with the old timestamp, a pair that no publish wrote. *)
Example torn_read_without_lock :
  rtc FrameSlot.step_unlocked FrameSlot.init slot_torn /\
  FrameSlot.returned slot_torn = [Some (other_jpeg, 10%float)] /\
  FrameSlot.published slot_torn =
    [(other_jpeg, 20%float); (sample_jpeg, 10%float)].
Proof.
  split; [|by vm_compute].
  unfold slot_torn.
  eapply rtc_l; [by apply (FrameSlot.u_w_enter _ sample_jpeg)|].
  eapply rtc_l; [by apply (FrameSlot.u_w_store_bytes _ sample_jpeg)|].
  eapply rtc_l; [by apply (FrameSlot.u_w_store_time _ sample_jpeg 10%float)|].
  eapply rtc_l; [by apply FrameSlot.u_w_leave|].
  eapply rtc_l; [by apply (FrameSlot.u_w_enter _ other_jpeg)|].
  eapply rtc_l; [by apply (FrameSlot.u_w_store_bytes _ other_jpeg)|].
  eapply rtc_l; [by apply (FrameSlot.u_r_enter _ 0)|].
  eapply rtc_l; [by apply (FrameSlot.u_r_test_bytes _ 0)|].
  eapply rtc_l; [by apply (FrameSlot.u_r_test_time _ 0 10.5%float)|].
  eapply rtc_l; [by apply (FrameSlot.u_r_load_result _ 0 10%float)|].
  eapply rtc_l; [by apply (FrameSlot.u_r_leave _ 0 (Some (other_jpeg, 10%float)))|].
  eapply rtc_l; [by apply (FrameSlot.u_w_store_time _ other_jpeg 20%float)|].
  apply rtc_once. by apply FrameSlot.u_w_leave.
Qed.

(** ** The control endpoint *)

Lemma command_map_lookup (d : string) :
  Relay.command_map !! d = (fun c => String c EmptyString) <$> spec_command d.
Proof.
  unfold Relay.command_map, spec_command.
  repeat (rewrite lookup_insert; case_decide as Heq;
          [subst d; reflexivity
          |apply not_eq_sym, String.eqb_neq in Heq; rewrite Heq; clear Heq]).
  by rewrite lookup_empty.
Qed.

Lemma spec_command_ascii (d : string) (c : Ascii.ascii) :
  spec_command d = Some c ->
  Relay.encode_ascii (String c EmptyString) = Some [Ascii.byte_of_ascii c].
Proof.
  unfold spec_command.
  repeat (case_match; [by intros [= <-]|]). done.
Qed.

Lemma send_command_calls (n : Relay.net) (d : string) (c : Ascii.ascii) :
  spec_command d = Some c ->
  snd (Relay.send_command_to_arduino_controller n (String c EmptyString))
    = relay_calls_for n c.
Proof.
  intros Hc. unfold Relay.send_command_to_arduino_controller, relay_calls_for.
  rewrite (spec_command_ascii d c Hc).
  destruct (Relay.socket_fault n), (Relay.connect_fault n),
    (Relay.sendall_fault n); reflexivity.
Qed.

Lemma send_command_message (n : Relay.net) (d : string) (c : Ascii.ascii) :
  spec_command d = Some c ->
  fst (Relay.send_command_to_arduino_controller n (String c EmptyString))
    = match first_fault n with
      | Some x => Relay.error_message (String c EmptyString) x
      | None => Relay.sent_message (String c EmptyString)
      end.
Proof.
  intros Hc. unfold Relay.send_command_to_arduino_controller, first_fault.
  rewrite (spec_command_ascii d c Hc).
  destruct (Relay.socket_fault n), (Relay.connect_fault n),
    (Relay.sendall_fault n); reflexivity.
Qed.

Lemma api_control_route_valid (n : Relay.net) (direction : string) (c : Ascii.ascii) :
  spec_command (Relay.lower direction) = Some c ->
  Relay.api_control_route n direction =
    ({| Relay.status := "success";
        Relay.message :=
          match first_fault n with
          | Some x => Relay.error_message (String c EmptyString) x
          | None => Relay.sent_message (String c EmptyString)
          end;
        Relay.http_status := 200 |},
     relay_calls_for n c).
Proof.
  intros Hc. unfold Relay.api_control_route.
  rewrite command_map_lookup, Hc. cbn [fmap option_fmap option_map].
  rewrite <- (send_command_message n _ c Hc), <- (send_command_calls n _ c Hc).
  by destruct (Relay.send_command_to_arduino_controller _ _).
Qed.

(** C6, as the code has it.  The direction is compared after [lower()]: a
    direction whose lower-case form is up, down, left, right or stop gets
    the status "success" with HTTP 200, and the relay is sent the one byte
    F, B, L, R or S once the socket is connected (nothing is sent when the
    socket or the connection fails); any other direction gets the error
    response with HTTP 400 and no call on the relay link. *)
Theorem C6_control_endpoint (n : Relay.net) (direction : string) :
  Relay.api_control_route n direction =
    match spec_command (Relay.lower direction) with
    | Some c =>
        ({| Relay.status := "success";
            Relay.message :=
              match first_fault n with
              | Some x => Relay.error_message (String c EmptyString) x
              | None => Relay.sent_message (String c EmptyString)
              end;
            Relay.http_status := 200 |},
         relay_calls_for n c)
    | None =>
        ({| Relay.status := "error"; Relay.message := "Invalid direction";
            Relay.http_status := 400 |}, [])
    end.
Proof.
  destruct (spec_command (Relay.lower direction)) as [c|] eqn:Hc.
  - by apply api_control_route_valid.
  - unfold Relay.api_control_route. by rewrite command_map_lookup, Hc.
Qed.

(** C6 as stated fails twice: "UP" is outside the set of names and is
    served as up; and with the relay unreachable "up" sends no byte, still
    with the status "success". *)
Lemma C6_counterexample :
("UP" ∉ ["up"; "down"; "left"; "right"; "stop"]) /\
  Relay.api_control_route net_ok "UP" =
    ({| Relay.status := "success";
        Relay.message := "Command 'F' sent to Arduino Controller.";
        Relay.http_status := 200 |},
     [Relay.connect "localhost" 9000; Relay.sendall [Byte.x46]]) /\
  Relay.api_control_route net_connect_timeout "up" =
    ({| Relay.status := "success";
        Relay.message := "Timeout sending 'F' to Arduino Controller.";
        Relay.http_status := 200 |},
     [Relay.connect "localhost" 9000]).
Proof.
  split; [|by vm_compute].
  rewrite !not_elem_of_cons. repeat (split; [discriminate|]).
  apply not_elem_of_nil.
Qed.

Example control_up_sends_F :
  Relay.api_control_route net_ok "up" =
    ({| Relay.status := "success";
        Relay.message := "Command 'F' sent to Arduino Controller.";
        Relay.http_status := 200 |},
     [Relay.connect "localhost" 9000; Relay.sendall [Byte.x46]]).
Proof. by vm_compute. Qed.

Example control_xyz_rejected :
  forall n, Relay.api_control_route n "xyz" =
    ({| Relay.status := "error"; Relay.message := "Invalid direction";
        Relay.http_status := 400 |}, []).
Proof. intros n. reflexivity. Qed.




(** The text of the answers to [up]: a send that timed out and a send that
    worked. *)
Example control_up_answers :
  Relay.message (fst (Relay.api_control_route net_connect_timeout "up")) =
    "Timeout sending 'F' to Arduino Controller." /\
  Relay.message (fst (Relay.api_control_route net_ok "up")) =
    "Command 'F' sent to Arduino Controller.".
Proof. by vm_compute. Qed.

(** * Further properties of the code *)

(** ** [start], the other outcomes *)

(** X1. [start] on a stopped handler, with a driver that works, ends in the
    state Running. *)
Theorem start_enters_running (env : start_env) (w : world)
    (res : nat * nat) (fps : nat) :
  constructed (self w) -> Stopped w -> no_fault env ->
  resolution (self w) = Is res -> framerate (self w) = Is fps ->
  exists w',
    start true env w = (Ok tt, w') /\
    running (self w') = Is true /\
    camera (self w') = Is (Some (length (cameras w))) /\
    cameras w' = cameras w ++ [configured_camera res fps (close_fault env)] /\
    thread (self w') = Is (Some (length (threads w))) /\
    threads w' = threads w ++ [Spawned] /\
    frame_bytes (self w') = frame_bytes (self w) /\
    last_frame_time (self w') = last_frame_time (self w) /\
    fst (Thread_is_alive w') = Ok true.
Proof.
  intros Hcons Hs Hnf Hres Hfps.
  eexists. split; [by apply (start_succeeds env w res fps)|].
  repeat (split; [done|]).
  unfold Thread_is_alive, bind, getattr. cbn.
  by rewrite lookup_app_r, Nat.sub_diag by done.
Qed.

Lemma start_enters_running_witness :
  exists w',
    start true env_ok w_new = (Ok tt, w') /\
    running (self w') = Is true /\
    camera (self w') = Is (Some (length (cameras w_new))) /\
    cameras w' = cameras w_new ++ [configured_camera (640, 480) 20 (close_fault env_ok)] /\
    thread (self w') = Is (Some (length (threads w_new))) /\
    threads w' = threads w_new ++ [Spawned] /\
    frame_bytes (self w') = frame_bytes (self w_new) /\
    last_frame_time (self w') = last_frame_time (self w_new) /\
    fst (Thread_is_alive w') = Ok true.
Proof.
  apply (start_enters_running env_ok w_new (640, 480) 20).
  - by repeat split.
  - by split.
  - by repeat split.
  - reflexivity.
  - reflexivity.
Defined.

(** [stop] does not wait when [self.thread] is not a live thread. *)
Lemma stop_without_live_thread during w t :
  thread (self w) = Is t ->
  (forall tid ts, t = Some tid -> threads w !! tid = Some ts -> alive ts = false) ->
  stop true during w = stop true [] w.
Proof.
  destruct w as [[cam fb run lk rs fr jq th lft] cams thr].
  cbn [self thread threads]. intros -> Hdead.
  unfold stop, stop_head, bind, modify_self, getattr, Thread_is_alive. cbn.
  destruct t as [tid|]; cbn; [|done].
  destruct (thr !! tid) as [ts|] eqn:Hts; [|done].
  by rewrite (Hdead tid ts eq_refl Hts).
Qed.

(** X2. When the launch of the thread fails, [start] lowers the flag and
    calls [close()] once on the device it had opened; the thread object
    stays unstarted, so a later [stop] does not wait for it.  When that
    [close()] returns, [start] returns, the device is closed and
    [self.camera] is [None]; when it raises, its exception leaves [start]
    and [self.camera] still holds the device, which is open. *)
Theorem start_thread_launch_failure (env : start_env) (w : world) (e : exn) :
  constructed (self w) -> Stopped w ->
  open_fault env = None -> resolution_fault env = None ->
  framerate_fault env = None -> thread_fault env = Some e ->
  exists r w' dev,
    start true env w = (r, w') /\
    running (self w') = Is false /\
    cameras w' = cameras w ++ [dev] /\ close_calls dev = 1 /\
    thread (self w') = Is (Some (length (threads w))) /\
    threads w' = threads w ++ [Created] /\
    fst (Thread_is_alive w') = Ok false /\
    (forall during, stop true during w' = stop true [] w') /\
    match close_fault env with
    | None => r = Ok tt /\ camera (self w') = Is None /\ closed dev = true
    | Some e' =>
        r = Raise e' /\ camera (self w') = Is (Some (length (cameras w))) /\
        closed dev = false
    end.
Proof.
  intros Hcons [Hr Hc] H1 H2 H3 H4.
  assert (exists r w' dev,
    start true env w = (r, w') /\
    running (self w') = Is false /\
    cameras w' = cameras w ++ [dev] /\ close_calls dev = 1 /\
    thread (self w') = Is (Some (length (threads w))) /\
    threads w' = threads w ++ [Created] /\
    match close_fault env with
    | None => r = Ok tt /\ camera (self w') = Is None /\ closed dev = true
    | Some e' =>
        r = Raise e' /\ camera (self w') = Is (Some (length (cameras w))) /\
        closed dev = false
    end) as (r & w' & dev & Hrun & Hr' & Hcams & Hn & Hth & Hthr & Hcase).
  { destruct (close_fault env) as [e'|] eqn:H5.
    - destruct (start_thread_fails_close_raises env w e e' Hcons (conj Hr Hc)
                  H1 H2 H3 H4 H5) as (w' & dev & Hrun & Hself & Hthr & Hcams & Hcl & Hn).
      exists (Raise e'), w', dev. rewrite Hself. by repeat split.
    - destruct (start_thread_fails env w e Hcons (conj Hr Hc) H1 H2 H3 H4 H5)
        as (w' & dev & Hrun & Hself & Hthr & Hcams & Hcl & Hn).
      exists (Ok tt), w', dev. rewrite Hself. by repeat split. }
  assert (Hlook : threads w' !! length (threads w) = Some Created)
    by (by rewrite Hthr, lookup_app_r, Nat.sub_diag).
  exists r, w', dev. split; [done|]. split; [done|]. split; [done|].
  split; [done|]. split; [done|]. split; [done|]. split; [|split; [|done]].
  - unfold Thread_is_alive, bind, getattr. rewrite Hth. by rewrite Hlook.
  - intros during. apply (stop_without_live_thread _ _ (Some (length (threads w)))).
    + done.
    + intros tid ts [= <-]. rewrite Hlook. by intros [= <-].
Qed.

Lemma start_thread_launch_failure_witness :
  exists r w' dev,
    start true env_thread_fails w_new = (r, w') /\
    running (self w') = Is false /\
    cameras w' = cameras w_new ++ [dev] /\ close_calls dev = 1 /\
    thread (self w') = Is (Some (length (threads w_new))) /\
    threads w' = threads w_new ++ [Created] /\
    fst (Thread_is_alive w') = Ok false /\
    (forall during, stop true during w' = stop true [] w') /\
    (r = Ok tt /\ camera (self w') = Is None /\ closed dev = true).
Proof.
  apply (start_thread_launch_failure env_thread_fails w_new
           (OtherException "can't start new thread")).
  - by repeat split.
  - by split.
  - reflexivity.
  - reflexivity.
  - reflexivity.
  - reflexivity.
Defined.

(** X19. When the open or the configuration of the device fails in [start],
    called on a stopped handler, and [close()] of the device does not
    raise, [start] returns with [running] false and [self.camera] [None];
    the handler is as it was before the call, no thread was built, and the
    device, if it was opened, has been closed by one call of [close()]. *)
Theorem start_failure_restores_stopped (env : start_env) (w : world) :
  constructed (self w) -> Stopped w -> fails_before_thread env ->
  close_fault env = None ->
  exists w',
    start true env w = (Ok tt, w') /\
    running (self w') = Is false /\ camera (self w') = Is None /\
    self w' = self w /\ threads w' = threads w /\
    match open_fault env with
    | Some _ => cameras w' = cameras w
    | None => exists dev, cameras w' = cameras w ++ [dev] /\
                          closed dev = true /\ close_calls dev = 1
    end.
Proof.
  intros Hcons Hs Hf Hcl.
  destruct (start_fails env w Hcons Hs Hf (or_intror Hcl))
    as (w' & Hrun & Hself & Hthr & Hcams).
  exists w'. split; [done|]. rewrite Hself.
  destruct Hs as [Hr Hc]. done.
Qed.

Lemma start_failure_restores_stopped_witness :
  exists w',
    start true env_bad_framerate w_new = (Ok tt, w') /\
    running (self w') = Is false /\ camera (self w') = Is None /\
    self w' = self w_new /\ threads w' = threads w_new /\
    exists dev, cameras w' = cameras w_new ++ [dev] /\
                closed dev = true /\ close_calls dev = 1.
Proof.
  apply (start_failure_restores_stopped env_bad_framerate w_new).
  - by repeat split.
  - by split.
  - right; right. discriminate.
  - reflexivity.
Defined.

(** ** Invariants of the handler in its process *)







(** ** The release of the device under interleaving *)

Lemma camera_closed_held w d dev :
  camera (self w) = Is (Some d) -> cameras w !! d = Some dev ->
  camera_closed w = (Ok (closed dev), w).
Proof.
  intros Hc Hd. unfold camera_closed.
  rewrite (bind_ok _ _ _ _ _ (getattr_is _ _ _ _ Hc)). by rewrite Hd.
Qed.

Lemma camera_closed_None w :
  camera (self w) = Is None ->
  camera_closed w = (Raise (AttributeError "closed"), w).
Proof.
  intros Hc. unfold camera_closed.
  by rewrite (bind_ok _ _ _ _ _ (getattr_is _ _ _ _ Hc)).
Qed.

Lemma advance_camera_test a w c :
  camera (self w) = Is c ->
  Teardown.advance a Teardown.AtCameraTest w =
    (if truthy c then Teardown.AtHasattr else Teardown.AtClearCamera, w).
Proof.
  intros Hc. unfold Teardown.advance, Teardown.next.
  by rewrite (bind_ok _ _ _ _ _ (getattr_is _ _ _ _ Hc)).
Qed.

Lemma advance_hasattr a w c :
  camera (self w) = Is c ->
  Teardown.advance a Teardown.AtHasattr w =
    (if truthy c then Teardown.AtClosedTest else Teardown.AtClearCamera, w).
Proof.
  intros Hc. unfold Teardown.advance, Teardown.next.
  by rewrite (bind_ok _ _ _ _ _ (getattr_is _ _ _ _ Hc)).
Qed.

Lemma advance_closed_test_held a w d dev :
  camera (self w) = Is (Some d) -> cameras w !! d = Some dev ->
  Teardown.advance a Teardown.AtClosedTest w =
    (if closed dev then Teardown.AtClearCamera else Teardown.AtClose, w).
Proof.
  intros Hc Hd. unfold Teardown.advance, Teardown.next.
  by rewrite (bind_ok _ _ _ _ _ (camera_closed_held w d dev Hc Hd)).
Qed.

Lemma advance_closed_test_None a w :
  camera (self w) = Is None ->
  Teardown.advance a Teardown.AtClosedTest w =
    (Teardown.Escaped (AttributeError "closed"), w).
Proof.
  intros Hc. unfold Teardown.advance, Teardown.next.
  by rewrite (bind_raise _ _ _ _ _ (camera_closed_None w Hc)).
Qed.

Lemma advance_close_held a w d :
  camera (self w) = Is (Some d) ->
  Teardown.advance a Teardown.AtClose w =
    (Teardown.AtClearCamera,
     {| self := self w; cameras := alter close_device d (cameras w);
        threads := threads w |}).
Proof.
  intros Hc. unfold Teardown.advance, Teardown.next, bind, try_except.
  destruct (camera_close_held w d Hc) as [r ->]. by destruct r.
Qed.

Lemma advance_close_None a w :
  camera (self w) = Is None ->
  Teardown.advance a Teardown.AtClose w = (Teardown.AtClearCamera, w).
Proof.
  intros Hc.
  unfold Teardown.advance, Teardown.next, try_except, camera_close.
  unfold bind, getattr, raise, ret. by rewrite Hc.
Qed.

Lemma close_device_lookup (cams : list PiCamera) (d : nat) (dev : PiCamera) :
  cams !! d = Some dev ->
  alter close_device d cams !! d = Some (close_device dev).
Proof. intros Hd. by rewrite list_lookup_alter_eq, Hd. Qed.

Ltac teardown_facts :=
  cbn [Teardown.store Teardown.stopper Teardown.capture fst snd self cameras
       threads camera frame_bytes with_camera with_running with_frame_bytes
       past_close past_guard past_clear escape_ok Nat.b2n close_device
       Teardown.first
       closed close_calls close_raises] in *.

(** What the invariant says before the step, made ready for [lia]. *)
Ltac teardown_known Hone Hclr :=
  try (let H := fresh "Hcalled" in
       assert (H := Hone);
       specialize (H ltac:(first [ by left | by right; left
                                 | by right; right; left
                                 | by right; right; right ])));
  try (let H := fresh "Hcleared" in
       assert (H := Hclr);
       specialize (H ltac:(first [ by left | by right ]))).

Ltac teardown_close :=
  repeat match goal with
         | |- _ /\ _ => split
         | |- _ -> _ => intro
         | H : _ \/ _ |- _ => destruct H
         end;
  try done; try lia; try congruence; auto.

Lemma teardown_inv_move d n0 raises a s :
  teardown_inv d n0 raises s -> teardown_inv d n0 raises (Teardown.move a s).
Proof.
  destruct s as [w ps pc]. unfold teardown_inv. teardown_facts.
  intros (dev & Hd & Hraise & Hcam & Hlo & Hhi & Hone & Hcl & Hop & Hclr & Hfr
          & Hps & Hpc & Heps & Hepc).
  destruct a; unfold Teardown.move; teardown_facts.
  - (* a step of [stop] *)
    destruct ps; try done; teardown_facts; teardown_known Hone Hclr.
    + destruct Hcam as [Hc|Hc]; rewrite (advance_camera_test _ _ _ Hc);
        teardown_facts; exists dev; teardown_close.
    + destruct Hcam as [Hc|Hc]; rewrite (advance_hasattr _ _ _ Hc);
        teardown_facts; exists dev; teardown_close.
    + destruct Hcam as [Hc|Hc].
      * rewrite (advance_closed_test_held _ _ _ _ Hc Hd).
        destruct (closed dev) eqn:Hclosed; teardown_facts; exists dev;
          rewrite ?Hclosed; teardown_close.
      * rewrite (advance_closed_test_None _ _ Hc). teardown_facts.
        exists dev. teardown_close.
    + destruct Hcam as [Hc|Hc].
      * rewrite (advance_close_held _ _ _ Hc). teardown_facts.
        exists (close_device dev). rewrite (close_device_lookup _ _ _ Hd).
        teardown_facts. rewrite Hraise.
        destruct raises; teardown_close.
      * rewrite (advance_close_None _ _ Hc). teardown_facts.
        exists dev. teardown_close.
    + exists dev. teardown_close.
    + exists dev. teardown_close.
    + exists dev. teardown_close.
    + exists dev. teardown_close.
  - (* a step of the capture thread *)
    destruct pc; try done; teardown_facts; teardown_known Hone Hclr.
    + exists dev. teardown_close.
    + destruct Hcam as [Hc|Hc]; rewrite (advance_camera_test _ _ _ Hc);
        teardown_facts; exists dev; teardown_close.
    + destruct Hcam as [Hc|Hc]; rewrite (advance_hasattr _ _ _ Hc);
        teardown_facts; exists dev; teardown_close.
    + destruct Hcam as [Hc|Hc].
      * rewrite (advance_closed_test_held _ _ _ _ Hc Hd).
        destruct (closed dev) eqn:Hclosed; teardown_facts; exists dev;
          rewrite ?Hclosed; teardown_close.
      * rewrite (advance_closed_test_None _ _ Hc). teardown_facts.
        exists dev. teardown_close.
    + destruct Hcam as [Hc|Hc].
      * rewrite (advance_close_held _ _ _ Hc). teardown_facts.
        exists (close_device dev). rewrite (close_device_lookup _ _ _ Hd).
        teardown_facts. rewrite Hraise.
        destruct raises; teardown_close.
      * rewrite (advance_close_None _ _ Hc). teardown_facts.
        exists dev. teardown_close.
    + exists dev. teardown_close.
    + exists dev. teardown_close.
    + exists dev. teardown_close.
Qed.

Lemma teardown_inv_run d n0 raises order s :
  teardown_inv d n0 raises s -> teardown_inv d n0 raises (Teardown.run order s).
Proof.
  revert s. induction order as [|a order IH]; intros s Hs; [done|].
  apply (IH (Teardown.move a s)). by apply teardown_inv_move.
Qed.

Lemma teardown_inv_init w d dev :
  camera (self w) = Is (Some d) -> cameras w !! d = Some dev ->
  closed dev = false ->
  teardown_inv d (close_calls dev) (close_raises dev) (Teardown.init w).
Proof.
  intros Hc Hd Hopen. exists dev. unfold Teardown.init. teardown_facts.
  split; [done|]. split; [done|]. split; [by left|].
  split; [lia|]. split; [lia|].
  split; [intros [?|[?|[?|?]]]; congruence|].
  split; [intros; lia|]. split; [done|].
  split; [intros [?|?]; congruence|]. split; [intros; congruence|].
  by repeat split.
Qed.

(** X4. The end of [stop] against the exit of the capture thread, in any
    interleaving of their steps, from a state in which the handler holds an
    open device: [close()] is called on the device at most twice; as soon
    as one of the two blocks has ended it has been called at least once and
    [self.camera] is [None], and the device is closed unless its [close()]
    raises; [frame_bytes] is [None] once [stop] has ended normally; and
    the only exception that leaves a block is the [AttributeError] of
    reading [closed] on [None]. *)
Theorem teardown_closes_once_or_twice (w : world) (d : nat) (dev : PiCamera)
    (order : list Teardown.who) :
  camera (self w) = Is (Some d) -> cameras w !! d = Some dev ->
  closed dev = false ->
  exists dev',
    cameras (Teardown.store (Teardown.run order (Teardown.init w))) !! d
      = Some dev' /\
    close_calls dev <= close_calls dev' /\
    close_calls dev' <= close_calls dev + 2 /\
    (Teardown.ended (Teardown.stopper (Teardown.run order (Teardown.init w)))
       = true \/
     Teardown.ended (Teardown.capture (Teardown.run order (Teardown.init w)))
       = true ->
     close_calls dev + 1 <= close_calls dev' /\
     camera (self (Teardown.store (Teardown.run order (Teardown.init w))))
       = Is None /\
     (close_raises dev = None -> closed dev' = true)) /\
    (Teardown.stopper (Teardown.run order (Teardown.init w)) = Teardown.Ended ->
     frame_bytes (self (Teardown.store (Teardown.run order (Teardown.init w))))
       = Is None) /\
    (forall e,
       Teardown.stopper (Teardown.run order (Teardown.init w)) = Teardown.Escaped e \/
       Teardown.capture (Teardown.run order (Teardown.init w)) = Teardown.Escaped e ->
       e = AttributeError "closed").
Proof.
  intros Hc Hd Hopen.
  pose proof (teardown_inv_run _ _ _ order _ (teardown_inv_init w d dev Hc Hd Hopen))
    as (dev' & Hd' & Hraise & Hcam & Hlo & Hhi & Hone & Hcl & Hop & Hclr & Hfr
        & Hps & Hpc & Heps & Hepc).
  set (s := Teardown.run order (Teardown.init w)) in *.
  exists dev'. split; [done|]. split; [done|]. split.
  { destruct (past_close (Teardown.stopper s)), (past_close (Teardown.capture s));
      cbn [Nat.b2n] in Hhi; lia. }
  split.
  { intros Hend.
    assert (Hg : past_guard (Teardown.stopper s) = true \/
                 past_guard (Teardown.capture s) = true).
    { destruct Hend as [H|H]; [left|right];
        by destruct (Teardown.stopper s), (Teardown.capture s). }
    assert (Hcr : past_clear (Teardown.stopper s) = true \/
                  past_clear (Teardown.capture s) = true).
    { destruct Hend as [H|H]; [left|right];
        by destruct (Teardown.stopper s), (Teardown.capture s). }
    split; [apply Hone; tauto|]. split; [by apply Hclr|].
    intros Hnone. apply Hcl; [apply Hone; tauto | congruence]. }
  split; [exact Hfr|].
  intros e [He|He]; rewrite He in *; [exact Heps | exact Hepc].
Qed.

Lemma teardown_closes_once_or_twice_witness :
  exists dev',
    cameras (Teardown.store (Teardown.run both_test_then_close
                               (Teardown.init w_wedged))) !! 0 = Some dev' /\
    0 <= close_calls dev' /\
    close_calls dev' <= 0 + 2 /\
    (Teardown.ended (Teardown.stopper (Teardown.run both_test_then_close
                                         (Teardown.init w_wedged))) = true \/
     Teardown.ended (Teardown.capture (Teardown.run both_test_then_close
                                         (Teardown.init w_wedged))) = true ->
     0 + 1 <= close_calls dev' /\
     camera (self (Teardown.store (Teardown.run both_test_then_close
                                     (Teardown.init w_wedged)))) = Is None /\
     (@None exn = None -> closed dev' = true)) /\
    (Teardown.stopper (Teardown.run both_test_then_close (Teardown.init w_wedged))
       = Teardown.Ended ->
     frame_bytes (self (Teardown.store (Teardown.run both_test_then_close
                                          (Teardown.init w_wedged)))) = Is None) /\
    (forall e,
       Teardown.stopper (Teardown.run both_test_then_close (Teardown.init w_wedged))
         = Teardown.Escaped e \/
       Teardown.capture (Teardown.run both_test_then_close (Teardown.init w_wedged))
         = Teardown.Escaped e ->
       e = AttributeError "closed").
Proof.
  apply (teardown_closes_once_or_twice w_wedged 0
           (configured_camera (640, 480) 20 None) both_test_then_close);
    reflexivity.
Defined.

(** ** One block after the other *)

Lemma advance_running a w :
  Teardown.advance a Teardown.AtRunning w =
    (Teardown.AtCameraTest,
     {| self := with_running false (self w); cameras := cameras w;
        threads := threads w |}).
Proof. reflexivity. Qed.

Lemma advance_clear_camera a w :
  Teardown.advance a Teardown.AtClearCamera w =
    (match a with
     | Teardown.Stopper => Teardown.AtClearFrame
     | Teardown.Capture => Teardown.Ended
     end,
     {| self := with_camera None (self w); cameras := cameras w;
        threads := threads w |}).
Proof. reflexivity. Qed.

Lemma advance_clear_frame a w :
  Teardown.advance a Teardown.AtClearFrame w =
    (Teardown.Ended,
     {| self := with_frame_bytes None (self w); cameras := cameras w;
        threads := threads w |}).
Proof. reflexivity. Qed.

Lemma advance_ended a w :
  Teardown.advance a Teardown.Ended w = (Teardown.Ended, w).
Proof. reflexivity. Qed.

Lemma steps_S a n p w :
  Teardown.steps a (S n) p w =
    Teardown.steps a n (fst (Teardown.advance a p w)) (snd (Teardown.advance a p w)).
Proof.
  unfold Teardown.steps. rewrite Nat.iter_succ_r. cbn [fst snd].
  by destruct (Teardown.advance a p w).
Qed.

Lemma steps_ended a n w : Teardown.steps a n Teardown.Ended w = (Teardown.Ended, w).
Proof.
  induction n as [|n IH]; [done|]. by rewrite steps_S, advance_ended.
Qed.

Lemma run_app l1 l2 s :
  Teardown.run (l1 ++ l2) s = Teardown.run l2 (Teardown.run l1 s).
Proof. apply foldl_app. Qed.

Lemma run_stopper_steps n w p pc :
  Teardown.run (replicate n Teardown.Stopper)
    {| Teardown.store := w; Teardown.stopper := p; Teardown.capture := pc |} =
  {| Teardown.store := snd (Teardown.steps Teardown.Stopper n p w);
     Teardown.stopper := fst (Teardown.steps Teardown.Stopper n p w);
     Teardown.capture := pc |}.
Proof.
  revert w p. induction n as [|n IH]; intros w p; [done|].
  rewrite steps_S. cbn [replicate Teardown.run foldl].
  unfold Teardown.move at 2. cbn [Teardown.store Teardown.stopper Teardown.capture].
  apply IH.
Qed.

Lemma run_capture_steps n w ps p :
  Teardown.run (replicate n Teardown.Capture)
    {| Teardown.store := w; Teardown.stopper := ps; Teardown.capture := p |} =
  {| Teardown.store := snd (Teardown.steps Teardown.Capture n p w);
     Teardown.stopper := ps;
     Teardown.capture := fst (Teardown.steps Teardown.Capture n p w) |}.
Proof.
  revert w p. induction n as [|n IH]; intros w p; [done|].
  rewrite steps_S. cbn [replicate Teardown.run foldl].
  unfold Teardown.move at 2. cbn [Teardown.store Teardown.stopper Teardown.capture].
  apply IH.
Qed.

(** From the test of [self.camera] on, with an open device held: the
    three reads, one call of [close()], [self.camera = None]. *)
Lemma steps_guarded_close_held a n w d dev :
  camera (self w) = Is (Some d) -> cameras w !! d = Some dev ->
  closed dev = false ->
  Teardown.steps a (5 + n) Teardown.AtCameraTest w =
    Teardown.steps a n
      (match a with
       | Teardown.Stopper => Teardown.AtClearFrame
       | Teardown.Capture => Teardown.Ended
       end)
      {| self := with_camera None (self w);
         cameras := alter close_device d (cameras w); threads := threads w |}.
Proof.
  intros Hc Hd Hopen. cbn [Nat.add].
  rewrite steps_S, (advance_camera_test _ _ _ Hc). cbn [fst snd truthy].
  rewrite steps_S, (advance_hasattr _ _ _ Hc). cbn [fst snd truthy].
  rewrite steps_S, (advance_closed_test_held _ _ _ _ Hc Hd), Hopen. cbn [fst snd].
  rewrite steps_S, (advance_close_held _ _ _ Hc). cbn [fst snd].
  by rewrite steps_S, advance_clear_camera.
Qed.

(** The same with no device held: one read, [self.camera = None]. *)
Lemma steps_guarded_close_None a n w :
  camera (self w) = Is None ->
  Teardown.steps a (2 + n) Teardown.AtCameraTest w =
    Teardown.steps a n
      (match a with
       | Teardown.Stopper => Teardown.AtClearFrame
       | Teardown.Capture => Teardown.Ended
       end)
      {| self := with_camera None (self w); cameras := cameras w;
         threads := threads w |}.
Proof.
  intros Hc. cbn [Nat.add].
  rewrite steps_S, (advance_camera_test _ _ _ Hc). cbn [fst snd truthy].
  by rewrite steps_S, advance_clear_camera.
Qed.

(** X7. Run one after the other, in either order, the end of [stop] and
    the exit of the capture thread call [close()] once between them on the
    open device the handler holds and touch no other device; both end
    normally, with [running] false, [self.camera] [None] and [frame_bytes]
    [None].  Run alone, each of the two blocks is what [stop_tail] and
    [capture_finally] compute, which return without raising. *)
Theorem teardown_in_turn_closes_once (w : world) (d : nat) (dev : PiCamera)
    (a : Teardown.who) :
  camera (self w) = Is (Some d) -> cameras w !! d = Some dev ->
  closed dev = false ->
  Teardown.run (in_turn a) (Teardown.init w) =
    {| Teardown.store :=
         {| self := with_frame_bytes None
                      (with_camera None (with_running false (self w)));
            cameras := alter close_device d (cameras w);
            threads := threads w |};
       Teardown.stopper := Teardown.Ended;
       Teardown.capture := Teardown.Ended |} /\
  Teardown.alone Teardown.Stopper w = (Teardown.Ended, snd (stop_tail w)) /\
  fst (stop_tail w) = Ok tt /\
  Teardown.alone Teardown.Capture w = (Teardown.Ended, snd (capture_finally w)) /\
  fst (capture_finally w) = Ok tt.
Proof.
  intros Hc Hd Hopen.
  assert (Hstop : Teardown.steps Teardown.Stopper 7 Teardown.AtCameraTest w =
    (Teardown.Ended,
     {| self := with_frame_bytes None (with_camera None (self w));
        cameras := alter close_device d (cameras w); threads := threads w |})).
  { rewrite (steps_guarded_close_held _ 2 w d dev Hc Hd Hopen).
    rewrite steps_S, advance_clear_frame. cbn [fst snd]. apply steps_ended. }
  assert (Hcap : Teardown.steps Teardown.Capture 7 Teardown.AtRunning w =
    (Teardown.Ended,
     {| self := with_camera None (with_running false (self w));
        cameras := alter close_device d (cameras w); threads := threads w |})).
  { rewrite steps_S, advance_running. cbn [fst snd].
    rewrite (steps_guarded_close_held _ 1 _ d dev) by done.
    apply steps_ended. }
  split; [|split; [|split; [|split]]].
  - destruct w as [[cam fb run lk rs fr jq th lft] cams thr].
    cbn [self camera cameras threads] in *. subst cam.
    destruct a; unfold in_turn, Teardown.init; rewrite run_app.
    + rewrite run_stopper_steps. cbn [Teardown.first]. rewrite Hstop. cbn [fst snd].
      rewrite run_capture_steps. cbn [Teardown.first].
      rewrite steps_S, advance_running. cbn [fst snd].
      rewrite (steps_guarded_close_None _ 4) by done.
      by rewrite steps_ended.
    + rewrite run_capture_steps. cbn [Teardown.first]. rewrite Hcap. cbn [fst snd].
      rewrite run_stopper_steps. cbn [Teardown.first].
      rewrite (steps_guarded_close_None _ 5) by done.
      rewrite steps_S, advance_clear_frame. cbn [fst snd].
      by rewrite steps_ended.
  - unfold Teardown.alone. cbn [Teardown.first]. rewrite Hstop. f_equal.
    unfold stop_tail, close_if_open.
    rewrite (bind_ok _ _ w tt
      {| self := self w; cameras := alter close_device d (cameras w);
         threads := threads w |}); [done|].
    rewrite (bind_ok _ _ _ _ _ (getattr_is _ _ _ _ Hc)). cbn [truthy].
    rewrite (bind_ok _ _ _ _ _ (getattr_is _ _ _ _ Hc)). cbn [truthy].
    rewrite (bind_ok _ _ _ _ _ (camera_closed_held w d dev Hc Hd)), Hopen.
    cbn [negb]. unfold try_except.
    destruct (camera_close_held w d Hc) as [r ->]. by destruct r as [[]|e].
  - destruct (stop_tail_spec w) as (w' & -> & _); [by rewrite Hc|done].
  - unfold Teardown.alone. cbn [Teardown.first]. rewrite Hcap. f_equal.
    unfold capture_finally. unfold bind at 1. unfold modify_self at 1.
    set (w1 := {| self := with_running false (self w); cameras := cameras w;
                  threads := threads w |}).
    assert (Hc1 : camera (self w1) = Is (Some d)) by exact Hc.
    unfold close_if_open.
    rewrite (bind_ok _ _ w1 tt
      {| self := self w1; cameras := alter close_device d (cameras w1);
         threads := threads w1 |}); [done|].
    rewrite (bind_ok _ _ _ _ _ (getattr_is _ _ _ _ Hc1)). cbn [truthy].
    rewrite (bind_ok _ _ _ _ _ (getattr_is _ _ _ _ Hc1)). cbn [truthy].
    rewrite (bind_ok _ _ _ _ _ (camera_closed_held w1 d dev Hc1 Hd)), Hopen.
    cbn [negb]. unfold try_except.
    destruct (camera_close_held w1 d Hc1) as [r ->]. by destruct r as [[]|e].
  - destruct (capture_finally_spec w) as (w' & -> & _); [by rewrite Hc|done].
Qed.

Lemma teardown_in_turn_closes_once_witness :
  Teardown.run (in_turn Teardown.Capture) (Teardown.init w_wedged) =
    {| Teardown.store :=
         {| self := with_frame_bytes None
                      (with_camera None (with_running false (self w_wedged)));
            cameras := alter close_device 0 (cameras w_wedged);
            threads := threads w_wedged |};
       Teardown.stopper := Teardown.Ended;
       Teardown.capture := Teardown.Ended |} /\
  Teardown.alone Teardown.Stopper w_wedged =
    (Teardown.Ended, snd (stop_tail w_wedged)) /\
  fst (stop_tail w_wedged) = Ok tt /\
  Teardown.alone Teardown.Capture w_wedged =
    (Teardown.Ended, snd (capture_finally w_wedged)) /\
  fst (capture_finally w_wedged) = Ok tt.
Proof.
  apply (teardown_in_turn_closes_once w_wedged 0
           (configured_camera (640, 480) 20 None) Teardown.Capture);
    reflexivity.
Defined.

(** ** From the device to the client *)

(** X5. A non-empty frame that a running capture thread receives is stored
    with its timestamp, the thread goes on capturing, and until the frame
    is one second old a read returns exactly that frame and a session pass
    yields it in one multipart chunk, then sleeps the stream interval. *)
Theorem published_frame_is_served (w : world) (tid : nat)
    (jpeg : bytes) (t now : time) :
  threads w !! tid = Some Capturing ->
  running (self w) = Is true -> is_set (lock (self w)) ->
  jpeg <> [] -> (now - t <? 1)%float = true ->
  exists w',
    _capture_loop true tid (Deliver (Frame jpeg t)) w = (Ok tt, w') /\
    frame_bytes (self w') = Is (Some jpeg) /\
    last_frame_time (self w') = Is t /\
    running (self w') = Is true /\
    threads w' !! tid = Some Capturing /\
    cameras w' = cameras w /\
    get_frame_jpeg_bytes true now w' = (Ok (Some jpeg), w') /\
    (forall placeholder,
       generate_video_frames true true true placeholder now w' =
         (Ok (Yield (multipart_chunk jpeg) min_stream_interval), w')).
Proof.
  destruct w as [[cam fb run lk rs fr jq th lft] cams thr].
  cbn [self threads running lock cameras].
  intros Hts -> [l ->]%is_set_Is Hne Hfresh.
  destruct jpeg as [|b bs]; [done|].
  assert (Hin : <[tid:=Capturing]> thr !! tid = Some Capturing)
    by (apply list_lookup_insert_eq; exact (lookup_lt_Some _ _ _ Hts)).
  unfold _capture_loop. cbn [threads]. rewrite Hts.
  eexists. split; [reflexivity|]. cbn [self threads cameras frame_bytes
    last_frame_time running with_last_frame_time with_frame_bytes].
  split; [done|]. split; [done|]. split; [done|]. split; [exact Hin|].
  split; [done|].
  assert (Hread : forall w1, w1 = {| self := with_last_frame_time t
                    (with_frame_bytes (Some (b :: bs))
                       {| camera := cam; frame_bytes := fb; running := Is true;
                          lock := Is l; resolution := rs; framerate := fr;
                          jpeg_quality := jq; thread := th;
                          last_frame_time := lft |});
                    cameras := cams; threads := <[tid:=Capturing]> thr |} ->
            get_frame_jpeg_bytes true now w1 = (Ok (Some (b :: bs)), w1)).
  { intros w1 ->. unfold get_frame_jpeg_bytes, bind, getattr. cbn.
    by rewrite Hfresh. }
  split; [by apply Hread|].
  intros placeholder.
  unfold generate_video_frames, try_except, get_frame_jpeg_bytes, bind, getattr.
  cbn. by rewrite Hfresh.
Qed.

Lemma published_frame_is_served_witness :
  exists w',
    _capture_loop true 0 (Deliver (Frame other_jpeg 12%float)) w_live = (Ok tt, w') /\
    frame_bytes (self w') = Is (Some other_jpeg) /\
    last_frame_time (self w') = Is 12%float /\
    running (self w') = Is true /\
    threads w' !! 0 = Some Capturing /\
    cameras w' = cameras w_live /\
    get_frame_jpeg_bytes true 12.25%float w' = (Ok (Some other_jpeg), w') /\
    (forall placeholder,
       generate_video_frames true true true placeholder 12.25%float w' =
         (Ok (Yield (multipart_chunk other_jpeg) min_stream_interval), w')).
Proof.
  apply (published_frame_is_served w_live 0 other_jpeg 12%float 12.25%float).
  - reflexivity.
  - reflexivity.
  - exact I.
  - discriminate.
  - reflexivity.
Defined.

(** X6. An empty capture is stored like any other, but it is never served:
    whatever the time, the read returns [None] and a session pass yields
    nothing. *)
Theorem empty_frame_is_never_served (w : world) (tid : nat) (t : time) :
  threads w !! tid = Some Capturing ->
  running (self w) = Is true -> is_set (lock (self w)) ->
  exists w',
    _capture_loop true tid (Deliver (Frame [] t)) w = (Ok tt, w') /\
    frame_bytes (self w') = Is (Some []) /\
    last_frame_time (self w') = Is t /\
    (forall now, get_frame_jpeg_bytes true now w' = (Ok None, w')) /\
    (forall placeholder now,
       generate_video_frames true true true placeholder now w' =
         (Ok (Idle (min_stream_interval / 2)%float), w')).
Proof.
  destruct w as [[cam fb run lk rs fr jq th lft] cams thr].
  cbn [self threads running lock cameras].
  intros Hts -> [l ->]%is_set_Is.
  unfold _capture_loop. cbn [threads]. rewrite Hts.
  eexists. split; [reflexivity|]. by cbn.
Qed.

Lemma empty_frame_is_never_served_witness :
  exists w',
    _capture_loop true 0 (Deliver (Frame [] 12%float)) w_live = (Ok tt, w') /\
    frame_bytes (self w') = Is (Some []) /\
    last_frame_time (self w') = Is 12%float /\
    (forall now, get_frame_jpeg_bytes true now w' = (Ok None, w')) /\
    (forall placeholder now,
       generate_video_frames true true true placeholder now w' =
         (Ok (Idle (min_stream_interval / 2)%float), w')).
Proof.
  apply (empty_frame_is_never_served w_live 0 12%float).
  - reflexivity.
  - reflexivity.
  - exact I.
Defined.

(** ** The streaming session *)

(** X8. A pass of a streaming session never raises and writes nothing:
    whatever the state of the handler, attributes missing or not, it
    returns and leaves handler, devices and threads as they were. *)
Theorem session_pass_never_raises (avail flask_running camera_handler : bool)
    (placeholder : bytes) (now : time) (w : world) :
  exists r,
    generate_video_frames avail flask_running camera_handler placeholder now w
      = (Ok r, w).
Proof.
  destruct w as [[cam fb run lk rs fr jq th lft] cams thr].
  unfold generate_video_frames, try_except, get_frame_jpeg_bytes, bind, getattr, ret.
  cbn.
  destruct flask_running, camera_handler, avail; cbn; try (by eexists).
  all: destruct run as [|[]]; cbn; try (by eexists).
  destruct lk; cbn; [by eexists|].
  destruct fb as [|[[|b bs]|]]; cbn; try (by eexists).
  destruct lft as [|t]; cbn; [by eexists|].
  destruct (_ <? _)%float; by eexists.
Qed.

(** While the process runs, a session whose producer is missing, not
    running, or without its library yields the placeholder chunk and then
    sleeps one second; it asks the frame slot nothing. *)
Lemma session_offline_yields_placeholder (avail camera_handler : bool)
    (placeholder : bytes) (now : time) (w : world) :
  camera_handler = false \/
  running (self w) = Is false \/
  (avail = false /\ is_set (running (self w))) ->
  generate_video_frames avail true camera_handler placeholder now w =
    (Ok (Yield (multipart_chunk placeholder) 1%float), w).
Proof.
  intros Hoff. unfold generate_video_frames, try_except. cbn [negb].
  rewrite (bind_ok _ _ w true w); [done|].
  destruct camera_handler; cbn [negb]; [|done].
  destruct Hoff as [?|[Hr|[-> [r Hr]%is_set_Is]]]; [done|..].
  - by rewrite (bind_ok _ _ _ _ _ (getattr_is _ _ _ _ Hr)).
  - rewrite (bind_ok _ _ _ _ _ (getattr_is _ _ _ _ Hr)). cbn.
    by rewrite orb_true_r.
Qed.

Lemma session_offline_yields_placeholder_witness :
  generate_video_frames true true true sample_jpeg 3%float w_new =
    (Ok (Yield (multipart_chunk sample_jpeg) 1%float), w_new).
Proof.
  apply (session_offline_yields_placeholder true true sample_jpeg 3%float w_new).
  right; left. reflexivity.
Defined.

(** ** The lock of the frame slot *)

(** X9. The lock excludes: in every state the interleaving reaches, a reader
    inside [with self.lock] has the writer and every other reader outside,
    and the writer inside has every reader outside. *)
Theorem frame_slot_mutual_exclusion (s : FrameSlot.state) :
  FrameSlot.reachable s ->
  (forall r, FrameSlot.reader_at s r <> FrameSlot.R_outside ->
     FrameSlot.writer s = FrameSlot.W_outside /\
     forall r', r' <> r -> FrameSlot.reader_at s r' = FrameSlot.R_outside) /\
  (FrameSlot.writer s <> FrameSlot.W_outside ->
     forall r, FrameSlot.reader_at s r = FrameSlot.R_outside).
Proof.
  intros HI%frame_slot_reachable_invariant. split.
  - intros r Hin. pose proof (slot_reader_lock s r HI Hin) as Hl. split.
    + apply slot_writer_outside; [done|congruence].
    + intros r' Hne. apply slot_reader_outside; [done|congruence].
  - intros Hin r. pose proof (slot_writer_lock s HI Hin) as Hl.
    apply slot_reader_outside; [done|congruence].
Qed.

Lemma frame_slot_mutual_exclusion_witness :
  (forall r, FrameSlot.reader_at slot_after_read r <> FrameSlot.R_outside ->
     FrameSlot.writer slot_after_read = FrameSlot.W_outside /\
     forall r', r' <> r ->
       FrameSlot.reader_at slot_after_read r' = FrameSlot.R_outside) /\
  (FrameSlot.writer slot_after_read <> FrameSlot.W_outside ->
     forall r, FrameSlot.reader_at slot_after_read r = FrameSlot.R_outside).
Proof. exact (frame_slot_mutual_exclusion slot_after_read slot_after_read_reachable). Defined.

(** X10. Whenever the lock is free, the slot is empty or holds the payload and
    the timestamp of one single publish. *)
Theorem frame_slot_consistent_when_free (s : FrameSlot.state) (b : bytes) :
  FrameSlot.reachable s ->
  FrameSlot.lock (FrameSlot.cell s) = FrameSlot.Free ->
  FrameSlot.frame_bytes (FrameSlot.cell s) = Some b ->
  (b, FrameSlot.last_frame_time (FrameSlot.cell s)) ∈ FrameSlot.published s.
Proof.
  intros HI%frame_slot_reachable_invariant Hfree Hb.
  pose proof (FrameSlot.inv_slot s HI) as Hslot.
  rewrite (slot_writer_outside s HI) in Hslot by congruence.
  by apply Hslot.
Qed.

Lemma frame_slot_consistent_when_free_witness :
  (sample_jpeg, FrameSlot.last_frame_time (FrameSlot.cell slot_after_read))
    ∈ FrameSlot.published slot_after_read.
Proof.
  apply (frame_slot_consistent_when_free slot_after_read sample_jpeg).
  - exact slot_after_read_reachable.
  - reflexivity.
  - reflexivity.
Defined.

(** ** The relay probe and the status endpoint *)

(** X11. The probe only connects and never sends; it answers [True] exactly
    when the socket is created and connected, whatever a later [sendall]
    would do, and in that case a valid command sent over the same network
    reaches [sendall] with its single byte. *)
Theorem probe_connects_and_never_sends (n : Relay.net) :
  (forall c, c ∈ snd (Status.check_arduino_controller_connection n) ->
     c = Relay.connect Relay.ARDUINO_CONTROLLER_HOST Relay.ARDUINO_CONTROLLER_PORT) /\
  length (snd (Status.check_arduino_controller_connection n)) <= 1 /\
  (fst (Status.check_arduino_controller_connection n) = Status.returns true <->
   Relay.socket_fault n = None /\ Relay.connect_fault n = None) /\
  (fst (Status.check_arduino_controller_connection n) = Status.returns true ->
   forall d c, spec_command d = Some c ->
     snd (Relay.send_command_to_arduino_controller n (String c EmptyString)) =
       [Relay.connect Relay.ARDUINO_CONTROLLER_HOST Relay.ARDUINO_CONTROLLER_PORT;
        Relay.sendall [Ascii.byte_of_ascii c]]).
Proof.
  unfold Status.check_arduino_controller_connection.
  destruct (Relay.socket_fault n) as [x|] eqn:Hs;
    [|destruct (Relay.connect_fault n) as [y|] eqn:Hc]; cbn [fst snd length].
  - split; [by intros c ?%elem_of_nil|]. split; [lia|].
    split; [split; [by destruct x|by intros [? _]]|by destruct x].
  - split; [by intros c ->%list_elem_of_singleton|]. split; [lia|].
    split; [split; [by destruct y|by intros [_ ?]]|by destruct y].
  - split; [by intros c ->%list_elem_of_singleton|]. split; [lia|].
    split; [done|]. intros _ d c Hsc.
    rewrite (send_command_calls n d c Hsc). unfold relay_calls_for.
    by rewrite Hs, Hc.
Qed.

Example status_target_text :
  Relay.ARDUINO_CONTROLLER_HOST +:+ ":" +:+ pretty Relay.ARDUINO_CONTROLLER_PORT
    = "localhost:9000".
Proof. by vm_compute. Qed.



(** ** The search for the tunnel address *)

Lemma strip_prefix_Some l s r :
  Tunnel.strip_prefix l s = Some r <-> s = l ++ r.
Proof.
  revert s. induction l as [|a l IH]; intros s; cbn.
  - split; congruence.
  - destruct s as [|b s]; [done|].
    destruct (Ascii.eqb_spec a b) as [->|Hne].
    + rewrite IH. split; [by intros ->|by intros [= ->]].
    + split; [done|by intros [= ? _]].
Qed.

Lemma match_plus_sound cls k s x :
  Tunnel.match_plus cls k s = Some x ->
  exists m r, s = m ++ r /\ m <> [] /\ forallb cls m = true /\ k r = Some x.
Proof.
  revert x. induction s as [|c s IH]; intros x; cbn; [done|].
  destruct (cls c) eqn:Hc; [|done].
  destruct (Tunnel.match_plus cls k s) as [y|] eqn:Hm.
  - intros [= <-]. destruct (IH y eq_refl) as (m & r & -> & _ & Hall & Hk).
    exists (c :: m), r. cbn. by rewrite Hc.
  - intros Hk. exists [c], s. cbn. by rewrite Hc.
Qed.

Lemma match_plus_complete cls k m r :
  m <> [] -> forallb cls m = true -> is_Some (k r) ->
  is_Some (Tunnel.match_plus cls k (m ++ r)).
Proof.
  intros Hne Hall Hk. induction m as [|c m IH]; [done|].
  cbn in Hall |- *. apply andb_true_iff in Hall as [-> Hall].
  destruct m as [|c' m].
  - cbn. by destruct (Tunnel.match_plus cls k r).
  - destruct (IH ltac:(done) Hall) as [y ->]. by eexists.
Qed.

Lemma match_tunnel_url_sound s rest :
  Tunnel.match_re Tunnel.tunnel_url_re Some s = Some rest ->
  exists host,
    s = Tunnel.lit "https://" ++ host ++ Tunnel.lit ".trycloudflare.com" ++ rest /\
    host <> [] /\ forallb Tunnel.url_char host = true.
Proof.
  cbn [Tunnel.match_re Tunnel.tunnel_url_re].
  destruct (Tunnel.strip_prefix (Tunnel.lit "https://") s) as [s1|] eqn:H1; [|done].
  apply strip_prefix_Some in H1 as ->.
  intros (host & r & -> & Hne & Hall & Hk)%match_plus_sound.
  destruct (Tunnel.strip_prefix (Tunnel.lit ".trycloudflare.com") r) as [r'|] eqn:H2;
    [|done].
  apply strip_prefix_Some in H2 as ->. injection Hk as ->.
  by exists host.
Qed.

Lemma match_tunnel_url_complete host post :
  host <> [] -> forallb Tunnel.url_char host = true ->
  is_Some (Tunnel.match_re Tunnel.tunnel_url_re Some
             (Tunnel.lit "https://" ++ host ++ Tunnel.lit ".trycloudflare.com" ++ post)).
Proof.
  intros Hne Hall. cbn [Tunnel.match_re Tunnel.tunnel_url_re].
  rewrite (proj2 (strip_prefix_Some _ _ _) eq_refl).
  apply match_plus_complete; [done|done|].
  by rewrite (proj2 (strip_prefix_Some _ _ _) eq_refl).
Qed.

Lemma take_matched {A} (s m rest : list A) :
  s = m ++ rest -> take (length s - length rest) s = m.
Proof.
  intros ->. rewrite length_app.
  replace (length m + length rest - length rest) with (length m) by lia.
  apply take_app_length.
Qed.

(** X13. What the search returns is a well-formed address that stands in the
    line: [https://], then one or more of the characters allowed in the
    host, then [.trycloudflare.com]. *)
Theorem tunnel_url_search_sound (s u : Tunnel.str) :
  Tunnel.re_search Tunnel.tunnel_url_re s = Some u ->
  exists pre host post,
    s = pre ++ u ++ post /\
    u = Tunnel.lit "https://" ++ host ++ Tunnel.lit ".trycloudflare.com" /\
    host <> [] /\ forallb Tunnel.url_char host = true.
Proof.
  induction s as [|c s IH].
  - cbn. done.
  - cbn [Tunnel.re_search].
    destruct (Tunnel.match_re Tunnel.tunnel_url_re Some (c :: s)) as [rest|] eqn:Hm.
    + intros [= <-].
      destruct (match_tunnel_url_sound _ _ Hm) as (host & Hs & Hne & Hall).
      assert (Hsplit : c :: s =
        (Tunnel.lit "https://" ++ host ++ Tunnel.lit ".trycloudflare.com") ++ rest)
        by (by rewrite Hs, <- !app_assoc).
      change (S (length s)) with (length (c :: s)).
      rewrite (take_matched _ _ _ Hsplit).
      by exists [], host, rest.
    + intros (pre & host & post & -> & Hu & Hne & Hall)%IH.
      by exists (c :: pre), host, post.
Qed.

Lemma tunnel_url_search_sound_witness :
  exists pre host post,
    Tunnel.strip cloudflared_banner =
      pre ++ Tunnel.lit "https://blue-sky-42.trycloudflare.com" ++ post /\
    Tunnel.lit "https://blue-sky-42.trycloudflare.com" =
      Tunnel.lit "https://" ++ host ++ Tunnel.lit ".trycloudflare.com" /\
    host <> [] /\ forallb Tunnel.url_char host = true.
Proof.
  apply (tunnel_url_search_sound (Tunnel.strip cloudflared_banner)
           (Tunnel.lit "https://blue-sky-42.trycloudflare.com")).
  by vm_compute.
Defined.

(** X14. The search misses no address: a line that contains [https://], one
    or more allowed characters and [.trycloudflare.com] gives a result. *)
Theorem tunnel_url_search_complete (pre host post : Tunnel.str) :
  host <> [] -> forallb Tunnel.url_char host = true ->
  is_Some (Tunnel.re_search Tunnel.tunnel_url_re
             (pre ++ Tunnel.lit "https://" ++ host
                  ++ Tunnel.lit ".trycloudflare.com" ++ post)).
Proof.
  intros Hne Hall. induction pre as [|c pre IH].
  - destruct (match_tunnel_url_complete host post Hne Hall) as [rest Hm].
    cbn [app]. set (s := _ ++ _) in *.
    destruct s as [|c s]; cbn [Tunnel.re_search]; rewrite Hm; by eexists.
  - cbn [app Tunnel.re_search].
    destruct (Tunnel.match_re _ _ _); [by eexists|exact IH].
Qed.

Lemma tunnel_url_search_complete_witness :
  is_Some (Tunnel.re_search Tunnel.tunnel_url_re
             (Tunnel.lit "INF |  " ++ Tunnel.lit "https://" ++ Tunnel.lit "blue-sky-42"
                ++ Tunnel.lit ".trycloudflare.com" ++ Tunnel.lit "  |")).
Proof.
  apply (tunnel_url_search_complete (Tunnel.lit "INF |  ") (Tunnel.lit "blue-sky-42")
           (Tunnel.lit "  |")).
  - discriminate.
  - reflexivity.
Defined.

Example tunnel_url_search_examples :
  (* greedy: the longest host that still ends in the suffix *)
  Tunnel.re_search Tunnel.tunnel_url_re
    (Tunnel.lit "see https://a.trycloudflare.com.trycloudflare.com now")
    = Some (Tunnel.lit "https://a.trycloudflare.com.trycloudflare.com") /\
  (* backtracking: letters after the suffix are given back *)
  Tunnel.re_search Tunnel.tunnel_url_re (Tunnel.lit "https://a.trycloudflare.community")
    = Some (Tunnel.lit "https://a.trycloudflare.com") /\
  (* the host may not be empty, and http is not https *)
  Tunnel.re_search Tunnel.tunnel_url_re (Tunnel.lit "https://.trycloudflare.com") = None /\
  Tunnel.re_search Tunnel.tunnel_url_re (Tunnel.lit "http://a.trycloudflare.com") = None /\
  (* leftmost: the first of two addresses *)
  Tunnel.re_search Tunnel.tunnel_url_re
    (Tunnel.lit "https://a.trycloudflare.com https://b.trycloudflare.com")
    = Some (Tunnel.lit "https://a.trycloudflare.com").
Proof. by vm_compute. Qed.

(** ** [start_cloudflared_tunnel] *)

Lemma scan_keeps_reading t0 item out :
  keeps_reading t0 item = true -> Tunnel.scan t0 (item :: out) = Tunnel.scan t0 out.
Proof.
  destruct item as [[[|c cs]|] now]; cbn [keeps_reading Tunnel.scan]; try done.
  destruct (Tunnel.re_search _ _); [done|].
  destruct (_ || _); [done|]. cbn [negb andb].
  by destruct (_ <? _)%float.
Qed.

Lemma scan_stops_reading t0 item out u :
  keeps_reading t0 item = false ->
  (Tunnel.scan t0 (item :: out) = Tunnel.found u <->
   exists l now, item = (Tunnel.line l, now) /\ l <> [] /\
     Tunnel.re_search Tunnel.tunnel_url_re (Tunnel.strip l) = Some u).
Proof.
  destruct item as [[[|c cs]|] now]; cbn [keeps_reading Tunnel.scan].
  - intros _. split; [done|]. by intros (l & now' & [= <- <-] & Hl & _).
  - destruct (Tunnel.re_search _ _) as [u'|] eqn:Hs.
    + intros _. split.
      * intros [= ->]. by exists (c :: cs), now.
      * intros (l & now' & [= <- <-] & _ & Hu). congruence.
    + intros Hstop. split.
      * destruct (_ || _); [done|]. cbn [negb andb] in Hstop.
        by destruct (_ <? _)%float.
      * intros (l & now' & [= <- <-] & _ & Hu). congruence.
  - intros _. split; [done|]. by intros (l & now' & [= ] & _).
Qed.

Lemma scan_found_iff t0 out u :
  Tunnel.scan t0 out = Tunnel.found u <->
  exists pre l now post,
    out = pre ++ (Tunnel.line l, now) :: post /\
    forallb (keeps_reading t0) pre = true /\
    l <> [] /\
    Tunnel.re_search Tunnel.tunnel_url_re (Tunnel.strip l) = Some u.
Proof.
  induction out as [|item out IH].
  - split; [done|]. intros (pre & l & now & post & Heq & _). by destruct pre.
  - destruct (keeps_reading t0 item) eqn:Hk.
    + rewrite (scan_keeps_reading _ _ _ Hk), IH. split.
      * intros (pre & l & now & post & -> & Hpre & Hl & Hu).
        exists (item :: pre), l, now, post.
        split; [done|]. split; [|done]. cbn [forallb]. by rewrite Hk.
      * intros ([|p pre] & l & now & post & Heq & Hpre & Hl & Hu).
        -- injection Heq as -> ->.
           exfalso. revert Hk. cbn [keeps_reading].
           destruct l as [|c cs]; [done|]. by rewrite Hu.
        -- injection Heq as <- ->. cbn [forallb] in Hpre.
           apply andb_true_iff in Hpre as [_ Hpre].
           by exists pre, l, now, post.
    + rewrite (scan_stops_reading _ _ _ _ Hk). split.
      * intros (l & now & -> & Hl & Hu). by exists [], l, now, out.
      * intros ([|p pre] & l & now & post & Heq & Hpre & Hl & Hu).
        -- injection Heq as -> ->. by exists l, now.
        -- injection Heq as <- ->. cbn [forallb] in Hpre. by rewrite Hk in Hpre.
Qed.

(** X15. With the tunnel enabled and [cloudflared] spawned, the call returns
    an address exactly when some line of the output holds one and every
    line before it let the loop go on (no address, no "failed" or "error"
    in any case, no timeout, no read error); the address returned is the
    one found in the first such line. *)
Theorem tunnel_returns_first_address (t0 : float)
    (out : list (Tunnel.read_outcome * float)) (expires : bool)
    (g : Tunnel.globals) (u : Tunnel.str) :
  fst (Tunnel.start_cloudflared_tunnel true
         {| Tunnel.popen := Tunnel.spawned; Tunnel.start_time := t0;
            Tunnel.output := out; Tunnel.wait_expires := expires |} g) = Some u
  <->
  exists pre l now post,
    out = pre ++ (Tunnel.line l, now) :: post /\
    forallb (keeps_reading t0) pre = true /\
    l <> [] /\
    Tunnel.re_search Tunnel.tunnel_url_re (Tunnel.strip l) = Some u.
Proof.
  rewrite <- scan_found_iff.
  unfold Tunnel.start_cloudflared_tunnel. cbn.
  destruct (Tunnel.scan t0 out); cbn; split; congruence.
Qed.

(** X16. How a call leaves the globals.  With an address: the address is
    stored, the handle is the new process, and that process got no call.
    Without: the stored address is as before, the handle is [None] when
    the tunnel is enabled, and a process spawned by the call got
    [terminate] and [wait(2)], followed by [kill] only when the wait
    expired on the path that gave up (not when [readline] raised). *)
Theorem tunnel_result_and_globals (enable : bool) (e : Tunnel.env)
    (g : Tunnel.globals) :
  match Tunnel.start_cloudflared_tunnel enable e g with
  | (Some u, g') =>
      enable = true /\ Tunnel.popen e = Tunnel.spawned /\
      Tunnel.tunnel_url_global g' = Some u /\
      Tunnel.tunnel_process_global g' = Some (length (Tunnel.processes g)) /\
      Tunnel.processes g' = Tunnel.processes g ++ [[]]
  | (None, g') =>
      Tunnel.tunnel_url_global g' = Tunnel.tunnel_url_global g /\
      (enable = false -> g' = g) /\
      (enable = true -> Tunnel.tunnel_process_global g' = None) /\
      (enable = true -> Tunnel.popen e = Tunnel.spawned ->
       Tunnel.processes g' = Tunnel.processes g ++ [calls_on_failure e])
  end.
Proof.
  unfold Tunnel.start_cloudflared_tunnel, calls_on_failure.
  destruct enable; cbn [negb]; [|done].
  destruct (Tunnel.popen e) eqn:Hp.
  - destruct (Tunnel.scan _ _); cbn.
    + done.
    + split; [by destruct (Tunnel.wait_expires e)|]. split; [done|].
      split; [done|]. intros _ _.
      destruct (Tunnel.wait_expires e); cbn; by rewrite !alter_snoc.
    + split; [done|]. split; [done|]. split; [done|]. intros _ _.
      by rewrite !alter_snoc.
  - done.
  - cbn. by destruct (Tunnel.tunnel_process_global g).
Qed.

(** ** [main]: the address it announces *)

Lemma re_search_tunnel_url_shape s u :
  Tunnel.re_search Tunnel.tunnel_url_re s = Some u ->
  exists host,
    u = Tunnel.lit "https://" ++ host ++ Tunnel.lit ".trycloudflare.com" /\
    host <> [] /\ forallb Tunnel.url_char host = true.
Proof.
  induction s as [|c s IH]; [done|].
  cbn [Tunnel.re_search].
  destruct (Tunnel.match_re Tunnel.tunnel_url_re Some (c :: s)) as [rest|] eqn:Hm;
    [|exact IH].
  intros [= <-].
  destruct (match_tunnel_url_sound _ _ Hm) as (host & Hs & Hne & Hall).
  assert (Hsplit : c :: s =
    (Tunnel.lit "https://" ++ host ++ Tunnel.lit ".trycloudflare.com") ++ rest)
    by (by rewrite Hs, <- !app_assoc).
  change (S (length s)) with (length (c :: s)).
  rewrite (take_matched _ _ _ Hsplit). by exists host.
Qed.

Lemma scan_found_shape t0 out u :
  Tunnel.scan t0 out = Tunnel.found u ->
  exists host,
    u = Tunnel.lit "https://" ++ host ++ Tunnel.lit ".trycloudflare.com" /\
    host <> [] /\ forallb Tunnel.url_char host = true.
Proof.
  intros (pre & l & now & post & _ & _ & _ & Hu)%scan_found_iff.
  by apply (re_search_tunnel_url_shape (Tunnel.strip l)).
Qed.

(** X18. The address [main] goes on to announce is the local one, with the
    stored tunnel address as it was, or it is the tunnel address that
    [start_cloudflared_tunnel] has just stored, which is well formed; the
    second happens only with the tunnel enabled and the internet there. *)
Theorem main_announces_local_or_tunnel_url (ENABLE_TUNNEL internet : bool)
    (e : Tunnel.env) (local_url : Tunnel.str) (g : Tunnel.globals) :
  (fst (Main.main_tunnel ENABLE_TUNNEL internet e local_url g) = local_url /\
   Tunnel.tunnel_url_global (snd (Main.main_tunnel ENABLE_TUNNEL internet e local_url g))
     = Tunnel.tunnel_url_global g) \/
  (ENABLE_TUNNEL = true /\ internet = true /\
   Tunnel.tunnel_url_global (snd (Main.main_tunnel ENABLE_TUNNEL internet e local_url g))
     = Some (fst (Main.main_tunnel ENABLE_TUNNEL internet e local_url g)) /\
   exists host,
     fst (Main.main_tunnel ENABLE_TUNNEL internet e local_url g) =
       Tunnel.lit "https://" ++ host ++ Tunnel.lit ".trycloudflare.com" /\
     host <> [] /\ forallb Tunnel.url_char host = true).
Proof.
  unfold Main.main_tunnel.
  destruct (ENABLE_TUNNEL && internet) eqn:Hon; [|by left].
  apply andb_true_iff in Hon as [-> ->].
  unfold Tunnel.start_cloudflared_tunnel. cbn [negb].
  destruct (Tunnel.popen e).
  - destruct (Tunnel.scan _ _) as [u| |] eqn:Hscan.
    + destruct (scan_found_shape _ _ _ Hscan) as (host & Hu & Hne & Hall).
      assert (exists c cs, u = c :: cs) as (c & cs & Hu')
        by (rewrite Hu; by eexists _, _).
      rewrite Hu'. cbn [fst snd]. rewrite <- Hu'. right.
      split; [done|]. split; [done|]. split; [done|]. by exists host.
    + left. cbn. split; [done|]. by destruct (Tunnel.wait_expires e).
    + by left.
  - by left.
  - left. cbn. by destruct (Tunnel.tunnel_process_global g).
Qed.

Example main_announces_the_banner_address :
  Main.main_tunnel true true
    {| Tunnel.popen := Tunnel.spawned; Tunnel.start_time := 100%float;
       Tunnel.output :=
         [(Tunnel.line (Tunnel.lit "INF Requesting new quick Tunnel"), 101%float);
          (Tunnel.line cloudflared_banner, 102%float);
          (Tunnel.line (Tunnel.lit "ERR connection failed"), 103%float)];
       Tunnel.wait_expires := false |}
    (Tunnel.lit "http://192.168.1.7:5000") tunnel_globals0
  = (Tunnel.lit "https://blue-sky-42.trycloudflare.com",
     {| Tunnel.tunnel_url_global :=
          Some (Tunnel.lit "https://blue-sky-42.trycloudflare.com");
        Tunnel.tunnel_process_global := Some 0;
        Tunnel.processes := [[]] |}).
Proof. by vm_compute. Qed.

Example main_announces_the_local_address :
  Main.main_tunnel true true
    {| Tunnel.popen := Tunnel.spawned; Tunnel.start_time := 100%float;
       Tunnel.output :=
         [(Tunnel.line (Tunnel.lit "ERR Failed to dial edge"), 101%float);
          (Tunnel.line cloudflared_banner, 102%float)];
       Tunnel.wait_expires := true |}
    (Tunnel.lit "http://192.168.1.7:5000") tunnel_globals0
  = (Tunnel.lit "http://192.168.1.7:5000",
     {| Tunnel.tunnel_url_global := None;
        Tunnel.tunnel_process_global := None;
        Tunnel.processes := [[Tunnel.terminate; Tunnel.wait 2; Tunnel.kill]] |}).
Proof. by vm_compute. Qed.
